(** * p2p-transfer: the transfer protocol of [app.js]

    A shallow embedding of the protocol core of [src/app.js] (heartbeat,
    chunked file sending, reassembly, transfer timeout, message dispatch)
    and the properties of it that the specification states.

    Conventions of the embedding.
    - The globals of [app.js] that the protocol reads or writes are the
      fields of [State]; every handler is a function [State -> State].
      Room bookkeeping ([peer], [currentRoomCode], [isHost], the unused
      [pendingFiles]) and the DOM are not part of the protocol state.
    - The receiving handlers can end in a [TypeError]. The form
      [..._outcome] of such a handler says how the call ends, by returning
      or by throwing; the form without the suffix is the state that the
      call leaves either way.
    - [Date.now()] is an argument [now : Z] of the handler that reads it.
    - Calls into the page ([showToast], [updateFileProgress], ...) are
      recorded, oldest first, in the field [ui]; messages handed to
      [connection.send] are recorded, oldest first, in the field [sent].
    - Sizes, counts and array lengths are [nat]: JavaScript numbers are
      taken in the range where they are exact integers, and arrays below
      the engine's length limit. Progress values are exact rationals where
      the script computes doubles. *)

From Stdlib Require Import ZArith QArith Lia.
From stdpp Require Import gmap strings list fin_maps.
From Stdlib Require Import Qround.

Close Scope Q_scope.
Open Scope nat_scope.

(** ** Configuration ([CONFIG]) *)

Record Config := {
  CHUNK_SIZE : nat;
  HEARTBEAT_INTERVAL : Z;
  HEARTBEAT_TIMEOUT : Z;
  TRANSFER_TIMEOUT : Z
}.

Definition CONFIG : Config := {|
  CHUNK_SIZE := 64 * 1024;
  HEARTBEAT_INTERVAL := 5000;
  HEARTBEAT_TIMEOUT := 15000;
  TRANSFER_TIMEOUT := 30000
|}.

(** ** Values *)

(** A JavaScript string whose characters the script inspects ([trim]): its
    UTF-16 code units. Identifiers, names and media types, which the script
    only passes along and compares, are [string]. *)
Definition jsstring := list N.

(** The content of an [ArrayBuffer] or of a [Blob]. *)
Definition bytes := list Byte.byte.

(** A [File] of the page: [size] is the length of its content. *)
Module File.
Record t := { name : string; type : string; content : bytes }.

Definition size (f : t) : nat := length (content f).

(** [file.slice(start, end)] for [0 <= start <= end]: both ends are clamped
    to the size. *)
Definition slice (f : t) (start end_ : nat) : bytes :=
  take (end_ - start) (drop start (content f)).
End File.

(** The [file-meta] message, which [receiveFileMeta] stores whole as
    [meta]. *)
Module Meta.
Record t := {
  fileId : string;
  name : string;
  size : nat;
  fileType : string;
  totalChunks : nat
}.
End Meta.

(** The wire messages, by their [type] tag. [Other] stands for every
    message whose tag is none of the five. [chunkIndex] is whatever the
    peer wrote, so it is an integer of either sign. *)
Inductive Message :=
| Heartbeat (timestamp : Z)
| Text (content : jsstring) (timestamp : Z)
| FileMeta (data : Meta.t)
| FileChunk (fileId : string) (chunkIndex : Z) (data : bytes)
| FileComplete (fileId : string)
| Other (type : string).

(** A [Blob]: its bytes and the [type] option it was built with. *)
Record Blob := { blob_bytes : bytes; blob_type : string }.

(** A JavaScript number that is the result of a division of two
    non-negative integers, possibly by zero. *)
Inductive Progress :=
| PNum (q : Q)
| PInfinity
| PNaN.

(** [a / b] for non-negative integers. *)
Definition js_div (a b : nat) : Progress :=
  match b with
  | O => match a with O => PNaN | S _ => PInfinity end
  | S _ => PNum (Z.of_nat a # Pos.of_nat b)
  end.

(** [x * 100]. *)
Definition js_times100 (x : Progress) : Progress :=
  match x with
  | PNum q => PNum (q * 100)%Q
  | PInfinity => PInfinity
  | PNaN => PNaN
  end.

(** [(a / b) * 100], the progress expression of both directions. *)
Definition percent (a b : nat) : Progress := js_times100 (js_div a b).

(** [x <= y] on these numbers: every comparison with [NaN] is false. *)
Definition progress_le (x y : Progress) : bool :=
  match x, y with
  | PNum p, PNum q => Qle_bool p q
  | PNum _, PInfinity => true
  | PInfinity, PInfinity => true
  | _, _ => false
  end.

(** [x < y]. *)
Definition progress_lt (x y : Progress) : bool :=
  match x, y with
  | PNum p, PNum q => negb (Qle_bool q p)
  | PNum _, PInfinity => true
  | _, _ => false
  end.

(** [x === 100]. *)
Definition is_100 (x : Progress) : bool :=
  match x with
  | PNum q => Qeq_bool q 100
  | _ => false
  end.

(** ** What the page is told *)

(** The texts of [showToast] that the protocol core produces:
    - [ConnectOk]: '连接成功！'
    - [PleaseConnect]: '请先建立连接'
    - [EnterText]: '请输入要发送的文本'
    - [TextSent]: '文本已发送'
    - [NewText]: '收到新文本'
    - [ConnectionLost]: '连接已断开'
    - [PeerLeft]: '对方已断开连接'
    - [FileSent name]: the file was sent ('发送完成')
    - [FileReceived name]: the file was received ('接收完成')
    - [FileTimedOut name]: the transfer timed out ('传输超时'). *)
Inductive ToastText :=
| ConnectOk
| PleaseConnect
| EnterText
| TextSent
| NewText
| ConnectionLost
| PeerLeft
| FileSent (name : string)
| FileReceived (name : string)
| FileTimedOut (name : string).

(** The second argument of [showToast]: '', 'success' or 'error'. *)
Inductive ToastType := plain | success | error.

Inductive Direction := sending | receiving.

Inductive ConnStatus := disconnected | connecting | connected.

Inductive UiEvent :=
| Toast (message : ToastText) (type : ToastType)
  (** [createFileItemElement] and its insertion in a list *)
| FileItem (fileId name : string) (size : nat) (status : Direction)
  (** [updateFileProgress] *)
| FileProgress (fileId : string) (progress : Progress)
  (** [updateFileStatus(fileId, 'completed', downloadUrl, fileName)]; an
      object URL is represented by the blob it names *)
| FileCompleted (fileId : string) (downloadUrl : option Blob)
    (fileName : option string)
  (** the status line set by [checkTransferTimeout] *)
| FileTimeout (fileId : string)
  (** the element built by [receiveText] *)
| TextShown (content : jsstring) (timestamp : Z)
| ConnectionStatus (status : ConnStatus)
| TransferSectionShown
  (** the lists and panels emptied by [resetConnection] *)
| PageReset.

(** ** Protocol state *)

(** The data connection, as far as the script looks at it: its [open]
    flag, which the channel sets. *)
Record Connection := { open : bool }.

(** An entry of [receivingFiles]. A slot of [chunks] is [None] while it is
    an empty slot of the array. *)
Module Inbound.
Record t := {
  meta : Meta.t;
  chunks : list (option bytes);
  receivedSize : nat;
  lastUpdate : Z
}.
End Inbound.

(** An entry of [completedFiles]. *)
Module Completed.
Record t := {
  name : string;
  size : nat;
  url : Blob;
  downloaded : bool
}.
End Completed.

(** The globals of the protocol. [receivingFiles] is a plain object used as
    a map from identifiers to entries: the field [receivingFiles] holds its
    own properties, and [receivingKeys] their names in the order in which
    the properties were created, from which the order of [for ... in] is
    made. *)
Record State := mkState {
  connection : option Connection;
  receivingFiles : gmap string Inbound.t;
  receivingKeys : list string;
  completedFiles : gmap string Completed.t;
  lastHeartbeat : Z;
  heartbeatTimer : bool;
  heartbeatCheckTimer : bool;
  transferCheckTimer : bool;
  textInput : jsstring;
  sent : list Message;
  ui : list UiEvent
}.

Definition set_connection (c : option Connection) (st : State) : State :=
  mkState c (receivingFiles st) (receivingKeys st) (completedFiles st)
    (lastHeartbeat st) (heartbeatTimer st) (heartbeatCheckTimer st)
    (transferCheckTimer st) (textInput st) (sent st) (ui st).

Definition set_receivingFiles (r : gmap string Inbound.t) (st : State) : State :=
  mkState (connection st) r (receivingKeys st) (completedFiles st)
    (lastHeartbeat st) (heartbeatTimer st) (heartbeatCheckTimer st)
    (transferCheckTimer st) (textInput st) (sent st) (ui st).

Definition set_receivingKeys (keys : list string) (st : State) : State :=
  mkState (connection st) (receivingFiles st) keys (completedFiles st)
    (lastHeartbeat st) (heartbeatTimer st) (heartbeatCheckTimer st)
    (transferCheckTimer st) (textInput st) (sent st) (ui st).

Definition set_completedFiles (c : gmap string Completed.t) (st : State) : State :=
  mkState (connection st) (receivingFiles st) (receivingKeys st) c
    (lastHeartbeat st) (heartbeatTimer st) (heartbeatCheckTimer st)
    (transferCheckTimer st) (textInput st) (sent st) (ui st).

Definition set_lastHeartbeat (t : Z) (st : State) : State :=
  mkState (connection st) (receivingFiles st) (receivingKeys st)
    (completedFiles st) t (heartbeatTimer st) (heartbeatCheckTimer st)
    (transferCheckTimer st) (textInput st) (sent st) (ui st).

Definition set_timers (ping check sweep : bool) (st : State) : State :=
  mkState (connection st) (receivingFiles st) (receivingKeys st)
    (completedFiles st) (lastHeartbeat st) ping check sweep (textInput st)
    (sent st) (ui st).

Definition set_textInput (s : jsstring) (st : State) : State :=
  mkState (connection st) (receivingFiles st) (receivingKeys st)
    (completedFiles st) (lastHeartbeat st) (heartbeatTimer st)
    (heartbeatCheckTimer st) (transferCheckTimer st) s (sent st) (ui st).

(** [connection.send(m)] *)
Definition connection_send (m : Message) (st : State) : State :=
  mkState (connection st) (receivingFiles st) (receivingKeys st)
    (completedFiles st) (lastHeartbeat st) (heartbeatTimer st)
    (heartbeatCheckTimer st) (transferCheckTimer st) (textInput st)
    (sent st ++ [m]) (ui st).

(** A call into the page. *)
Definition tell (e : UiEvent) (st : State) : State :=
  mkState (connection st) (receivingFiles st) (receivingKeys st)
    (completedFiles st) (lastHeartbeat st) (heartbeatTimer st)
    (heartbeatCheckTimer st) (transferCheckTimer st) (textInput st) (sent st)
    (ui st ++ [e]).

(** [receivingFiles[fileId] = file]: a property that is there keeps its
    place in the order, a new one goes to the end of it. *)
Definition receivingFiles_assign (fileId : string) (file : Inbound.t)
    (st : State) : State :=
  let keys :=
    match receivingFiles st !! fileId with
    | Some _ => receivingKeys st
    | None => receivingKeys st ++ [fileId]
    end in
  set_receivingKeys keys
    (set_receivingFiles (<[fileId := file]> (receivingFiles st)) st).

(** [delete receivingFiles[fileId]] *)
Definition receivingFiles_delete (fileId : string) (st : State) : State :=
  set_receivingKeys (filter (fun k => k ≠ fileId) (receivingKeys st))
    (set_receivingFiles (delete fileId (receivingFiles st)) st).

(** [receivingFiles = {}] *)
Definition receivingFiles_clear (st : State) : State :=
  set_receivingKeys [] (set_receivingFiles ∅ st).

Definition showToast (message : ToastText) (type : ToastType) : State -> State :=
  tell (Toast message type).

Definition updateFileProgress (fileId : string) (progress : Progress)
  : State -> State :=
  tell (FileProgress fileId progress).

Definition updateFileStatus (fileId : string) (downloadUrl : option Blob)
    (fileName : option string) : State -> State :=
  tell (FileCompleted fileId downloadUrl fileName).

Definition updateConnectionStatus (status : ConnStatus) : State -> State :=
  tell (ConnectionStatus status).

(** [!connection || connection.open !== true] is false. *)
Definition channel_open (st : State) : bool :=
  match connection st with
  | Some c => open c
  | None => false
  end.

(** The state of a page that has not connected yet. *)
Definition initial : State :=
  mkState None ∅ [] ∅ 0 false false false [] [] [].

(** ** Heartbeat *)

(** Each of the three interval timers is cleared when it is set. *)
Definition stopHeartbeat (st : State) : State :=
  set_timers
    (if heartbeatTimer st then false else heartbeatTimer st)
    (if heartbeatCheckTimer st then false else heartbeatCheckTimer st)
    (if transferCheckTimer st then false else transferCheckTimer st)
    st.

Definition resetConnection (st : State) : State :=
  let st := set_connection None st in
  let st := receivingFiles_clear st in
  let st := updateConnectionStatus disconnected st in
  let st := tell PageReset st in
  stopHeartbeat st.

(** The callback of [heartbeatTimer]; a failing send is caught there. *)
Definition heartbeatPing (now : Z) (st : State) : State :=
  match connection st with
  | Some c => if open c then connection_send (Heartbeat now) st else st
  | None => st
  end.

(** The callback of [heartbeatCheckTimer]. *)
Definition heartbeatCheck (cfg : Config) (now : Z) (st : State) : State :=
  if (now - lastHeartbeat st >? HEARTBEAT_TIMEOUT cfg)%Z then
    match connection st with
    | Some c =>
        if negb (open c) then
          resetConnection (showToast ConnectionLost error st)
        else st
    | None => st
    end
  else st.

(** [file.lastUpdate && now - file.lastUpdate > CONFIG.TRANSFER_TIMEOUT]:
    a [lastUpdate] of 0 is falsy. *)
Definition timed_out (cfg : Config) (now : Z) (file : Inbound.t) : bool :=
  negb (Inbound.lastUpdate file =? 0)%Z
  && (now - Inbound.lastUpdate file >? TRANSFER_TIMEOUT cfg)%Z.

(** The body of the [for ... in] loop of [checkTransferTimeout]. A key
    whose property is gone when its turn comes is not visited. *)
Definition checkTransferTimeout_body (cfg : Config) (now : Z) (st : State)
    (fileId : string) : State :=
  match receivingFiles st !! fileId with
  | Some file =>
      if timed_out cfg now file then
        let st := tell (FileTimeout fileId) st in
        let st :=
          showToast (FileTimedOut (Meta.name (Inbound.meta file))) error st in
        receivingFiles_delete fileId st
      else st
  | None => st
  end.

(** The array index that a property name spells, if it spells one: the
    name is the decimal numeral, without a leading zero, of an integer
    below 2^32 - 1. *)
Definition digit (c : Ascii.ascii) : option N :=
  let n := Ascii.N_of_ascii c in
  if ((48 <=? n) && (n <=? 57))%N then Some (n - 48)%N else None.

Fixpoint numeral (acc : N) (s : string) : option N :=
  match s with
  | EmptyString => Some acc
  | String c s' =>
      match digit c with
      | Some d => numeral (acc * 10 + d) s'
      | None => None
      end
  end.

Definition array_index (name : string) : option N :=
  match name with
  | EmptyString => None
  | String c rest =>
      if (Ascii.N_of_ascii c =? 48)%N && negb (String.eqb rest "") then None
      else
        match numeral 0 name with
        | Some n => if (n <? 4294967295)%N then Some n else None
        | None => None
        end
  end.

(** Names that spell array indices, sorted by index. *)
Definition index_of (name : string) : N := default 0%N (array_index name).

Fixpoint insert_by_index (k : string) (ks : list string) : list string :=
  match ks with
  | [] => [k]
  | k' :: ks' =>
      if (index_of k <=? index_of k')%N then k :: ks
      else k' :: insert_by_index k ks'
  end.

Definition sort_by_index (ks : list string) : list string :=
  foldr insert_by_index [] ks.

(** The order in which [for ... in] visits the own properties of an object
    whose properties were created in the order [ks]: the names that are
    array indices first, by ascending index, then the other names in the
    order of their creation. *)
Definition property_order (ks : list string) : list string :=
  sort_by_index (filter (fun k => is_Some (array_index k)) ks)
  ++ filter (fun k => ¬ is_Some (array_index k)) ks.

(** The names of the own properties of [receivingFiles] in the order of
    their creation, as [receivingKeys] records it. In every state that the
    handlers build from [initial] this is [receivingKeys] itself (lemmas
    [keys_recorded_step] and [own_keys_recorded]); the definition also
    makes sense of a record that lists a name twice, lists a property that
    is gone, or misses one (which then comes last). *)
Definition own_keys (st : State) : list string :=
  let recorded :=
    filter (fun k => is_Some (receivingFiles st !! k))
      (remove_dups (receivingKeys st)) in
  recorded ++ list_difference (map_to_list (receivingFiles st)).*1 recorded.

(** The keys that [for (const fileId in receivingFiles)] visits, in order.
    The properties that objects inherit are not enumerable. *)
Definition for_in (st : State) : list string := property_order (own_keys st).

(** The callback of [transferCheckTimer]. *)
Definition checkTransferTimeout (cfg : Config) (now : Z) (st : State) : State :=
  foldl (checkTransferTimeout_body cfg now) st (for_in st).

Definition startHeartbeat (now : Z) (st : State) : State :=
  let st := set_lastHeartbeat now st in
  let st := stopHeartbeat st in
  set_timers true true true st.

(** The handlers that [setupConnection] installs for 'open' and 'close'. *)
Definition connection_on_open (now : Z) (st : State) : State :=
  let st := updateConnectionStatus connected st in
  let st := tell TransferSectionShown st in
  let st := showToast ConnectOk success st in
  startHeartbeat now st.

Definition connection_on_close (st : State) : State :=
  resetConnection (showToast PeerLeft error st).

(** ** Receiving *)

(** [new Array(n)]: [n] empty slots. *)
Definition new_Array (n : nat) : list (option bytes) := replicate n None.

(** [a[i] = x] on an array, for an integer [i]. The array indices are the
    integers from 0 to 2^32 - 2, and an array has at most 2^32 - 1
    elements, so that every position inside it is an array index. A store
    at an index inside the array sets that element; a store at an index at
    or past the length extends the array with empty slots up to it. An [i]
    that is negative or above 2^32 - 2 is not an array index: the store
    creates an ordinary property of that name, and no element and not the
    length changes. *)
Definition array_store (a : list (option bytes)) (i : Z) (x : bytes)
  : list (option bytes) :=
  if (i <? 0)%Z then a
  else if (i <? Z.of_nat (length a))%Z then <[Z.to_nat i := Some x]> a
  else if (i <? 4294967295)%Z then
    a ++ replicate (Z.to_nat i - length a) None ++ [Some x]
  else a.

(** The conversion of an array element to a blob part: a buffer gives its
    bytes, an empty slot reads as [undefined] and gives the text
    'undefined'. *)
Definition undefined_text : bytes :=
  [Byte.x75; Byte.x6e; Byte.x64; Byte.x65; Byte.x66; Byte.x69; Byte.x6e;
   Byte.x65; Byte.x64].

Definition blob_part (slot : option bytes) : bytes :=
  match slot with
  | Some data => data
  | None => undefined_text
  end.

(** [new Blob(parts, { type })]: the parts in index order. *)
Definition new_Blob (parts : list (option bytes)) (type : string) : Blob :=
  {| blob_bytes := concat (map blob_part parts); blob_type := type |}.

Definition receiveText (content : jsstring) (timestamp : Z) (st : State)
  : State :=
  let st := tell (TextShown content timestamp) st in
  showToast NewText plain st.

Definition receiveFileMeta (now : Z) (data : Meta.t) (st : State) : State :=
  let st :=
    receivingFiles_assign (Meta.fileId data)
      {| Inbound.meta := data;
         Inbound.chunks := new_Array (Meta.totalChunks data);
         Inbound.receivedSize := 0;
         Inbound.lastUpdate := now |} st in
  tell (FileItem (Meta.fileId data) (Meta.name data) (Meta.size data)
          receiving) st.

(** The names of the properties that every plain object inherits from
    [Object.prototype]. *)
Definition inherited_names : list string :=
  ["constructor"; "__defineGetter__"; "__defineSetter__"; "hasOwnProperty";
   "__lookupGetter__"; "__lookupSetter__"; "isPrototypeOf";
   "propertyIsEnumerable"; "toString"; "valueOf"; "__proto__";
   "toLocaleString"].

Definition inherited (name : string) : bool :=
  bool_decide (name ∈ inherited_names).

(** What [receivingFiles[fileId]] evaluates to: the entry, when the object
    has a property of its own by that name; failing that, for one of the
    inherited names, the function or object inherited under it, which is
    truthy and has none of the fields of an entry; [undefined] otherwise. *)
Inductive Property :=
| entry (fileData : Inbound.t)
| inherited_value
| undefined.

Definition receivingFiles_get (fileId : string) (st : State) : Property :=
  match receivingFiles st !! fileId with
  | Some fileData => entry fileData
  | None => if inherited fileId then inherited_value else undefined
  end.

(** How the call of a handler ends: it returns, or a [TypeError] leaves it.
    The script catches nothing around its message handlers, so the error
    leaves [handleData] as well; the page goes on with the state as the
    handler left it. *)
Inductive Outcome :=
| returns (st : State)
| throws (st : State).

Definition state_after (o : Outcome) : State :=
  match o with
  | returns st => st
  | throws st => st
  end.

(** [receiveFileChunk]. With an inherited value for [fileData], the guard
    [!fileData] does not return, [fileData.chunks] is [undefined], and the
    store into it throws before anything is written. *)
Definition receiveFileChunk_outcome (now : Z) (fileId : string)
    (chunkIndex : Z) (data : bytes) (st : State) : Outcome :=
  match receivingFiles_get fileId st with
  | undefined => returns st
  | inherited_value => throws st
  | entry fileData =>
      let fileData :=
        {| Inbound.meta := Inbound.meta fileData;
           Inbound.chunks :=
             array_store (Inbound.chunks fileData) chunkIndex data;
           Inbound.receivedSize :=
             Inbound.receivedSize fileData + length data;
           Inbound.lastUpdate := now |} in
      let st :=
        set_receivingFiles (<[fileId := fileData]> (receivingFiles st)) st in
      let progress :=
        percent (Inbound.receivedSize fileData)
          (Meta.size (Inbound.meta fileData)) in
      returns (updateFileProgress fileId progress st)
  end.

Definition receiveFileChunk (now : Z) (fileId : string) (chunkIndex : Z)
    (data : bytes) (st : State) : State :=
  state_after (receiveFileChunk_outcome now fileId chunkIndex data st).

(** [receiveFileComplete]. With an inherited value for [fileData],
    [fileData.meta] is [undefined] and reading [fileType] of it throws,
    before the blob is built. *)
Definition receiveFileComplete_outcome (fileId : string) (st : State)
  : Outcome :=
  match receivingFiles_get fileId st with
  | undefined => returns st
  | inherited_value => throws st
  | entry fileData =>
      let blob :=
        new_Blob (Inbound.chunks fileData)
          (Meta.fileType (Inbound.meta fileData)) in
      let url := blob in
      let st :=
        set_completedFiles
          (<[fileId :=
               {| Completed.name := Meta.name (Inbound.meta fileData);
                  Completed.size := Meta.size (Inbound.meta fileData);
                  Completed.url := url;
                  Completed.downloaded := false |}]> (completedFiles st))
          st in
      let st :=
        updateFileStatus fileId (Some url)
          (Some (Meta.name (Inbound.meta fileData))) st in
      let st :=
        showToast (FileReceived (Meta.name (Inbound.meta fileData)))
          success st in
      returns (receivingFiles_delete fileId st)
  end.

Definition receiveFileComplete (fileId : string) (st : State) : State :=
  state_after (receiveFileComplete_outcome fileId st).

Definition handleData_outcome (now : Z) (data : Message) (st : State)
  : Outcome :=
  let st := set_lastHeartbeat now st in
  match data with
  | Heartbeat _ => returns st
  | Text content timestamp => returns (receiveText content timestamp st)
  | FileMeta data => returns (receiveFileMeta now data st)
  | FileChunk fileId chunkIndex data =>
      receiveFileChunk_outcome now fileId chunkIndex data st
  | FileComplete fileId => receiveFileComplete_outcome fileId st
  | Other _ => returns st
  end.

(** The state in which a call of [handleData] leaves the page, however the
    call ends (lemma [handleData_state]). *)
Definition handleData (now : Z) (data : Message) (st : State) : State :=
  let st := set_lastHeartbeat now st in
  match data with
  | Heartbeat _ => st
  | Text content timestamp => receiveText content timestamp st
  | FileMeta data => receiveFileMeta now data st
  | FileChunk fileId chunkIndex data =>
      receiveFileChunk now fileId chunkIndex data st
  | FileComplete fileId => receiveFileComplete fileId st
  | Other _ => st
  end.

(** ** Sending *)

(** [Math.ceil(a / b)] for [b >= 1]. (For [b = 0] the script computes
    [Infinity] or [NaN]; the embedding is not meant for that case.) *)
Definition ceil_div (a b : nat) : nat :=
  a / b + (if a mod b =? 0 then 0 else 1).

(** One turn of the loop of [sendFile], on the pair of the state and the
    counter [sentChunks]. *)
Definition sendFile_turn (cfg : Config) (fileId : string) (file : File.t)
    (totalChunks : nat) (acc : State * nat) (i : nat) : State * nat :=
  let st := acc.1 in
  let sentChunks := acc.2 in
  let start := i * CHUNK_SIZE cfg in
  let end_ := Nat.min (start + CHUNK_SIZE cfg) (File.size file) in
  let chunk := File.slice file start end_ in
  let st := connection_send (FileChunk fileId (Z.of_nat i) chunk) st in
  let sentChunks := S sentChunks in
  let progress := percent sentChunks totalChunks in
  (updateFileProgress fileId progress st, sentChunks).

(** [sendFile], for the identifier that [generateFileId] returns. The
    function is one send running to its end on a channel that stays
    available: its [await]s are points where other handlers may run, and
    they change neither the messages of this send nor their order. *)
Definition sendFile (cfg : Config) (fileId : string) (file : File.t)
    (st : State) : State :=
  let totalChunks := ceil_div (File.size file) (CHUNK_SIZE cfg) in
  let st :=
    tell (FileItem fileId (File.name file) (File.size file) sending) st in
  let st :=
    connection_send
      (FileMeta {| Meta.fileId := fileId;
                   Meta.name := File.name file;
                   Meta.size := File.size file;
                   Meta.fileType := File.type file;
                   Meta.totalChunks := totalChunks |}) st in
  let acc :=
    foldl (sendFile_turn cfg fileId file totalChunks) (st, 0)
      (seq 0 totalChunks) in
  let st := acc.1 in
  let st := connection_send (FileComplete fileId) st in
  let st := updateFileStatus fileId None None st in
  showToast (FileSent (File.name file)) success st.

(** [handleFiles]: the guard, and the sends it starts. Each file of the
    list comes with the identifier its send will draw. The sends are
    asynchronous; the function returns the state after its own synchronous
    part and the list of the sends started, each of which then behaves as
    [sendFile]. *)
Definition handleFiles (files : list (string * File.t)) (st : State)
  : State * list (string * File.t) :=
  if negb (channel_open st) then (showToast PleaseConnect error st, [])
  else (st, files).

(** The code units that [trim] strips: WhiteSpace and LineTerminator. *)
Definition is_whitespace (c : N) : bool :=
  ((9 <=? c) && (c <=? 13) || (c =? 32) || (c =? 160) || (c =? 0x1680)
   || (0x2000 <=? c) && (c <=? 0x200A) || (c =? 0x2028) || (c =? 0x2029)
   || (c =? 0x202F) || (c =? 0x205F) || (c =? 0x3000) || (c =? 0xFEFF))%N.

Fixpoint trimStart (s : jsstring) : jsstring :=
  match s with
  | c :: s' => if is_whitespace c then trimStart s' else s
  | [] => []
  end.

Definition trimEnd (s : jsstring) : jsstring := rev (trimStart (rev s)).

Definition trim (s : jsstring) : jsstring := trimEnd (trimStart s).

(** [!text] for a string: it is empty. *)
Definition is_empty (s : jsstring) : bool :=
  match s with [] => true | _ :: _ => false end.

Definition sendText (now : Z) (st : State) : State :=
  let text := trim (textInput st) in
  if is_empty text then showToast EnterText error st
  else if negb (channel_open st) then showToast PleaseConnect error st
  else
    let st := connection_send (Text text now) st in
    let st := set_textInput [] st in
    showToast TextSent success st.

(** ** The event loop *)

(** What can happen to a page on the receiving side: a message arrives,
    one of the three interval timers fires, the connection reports that it
    closed, or the channel drops its [open] flag. *)
Inductive Event :=
| Data (now : Z) (data : Message)
| PingTick (now : Z)
| CheckTick (now : Z)
| SweepTick (now : Z)
| Closed
| ChannelDown.

(** A timer's callback runs only while the timer is set. An error that
    leaves [handleData] is not caught by the page, which goes on from the
    state that the call left. *)
Definition step (cfg : Config) (st : State) (ev : Event) : State :=
  match ev with
  | Data now data => handleData now data st
  | PingTick now => if heartbeatTimer st then heartbeatPing now st else st
  | CheckTick now =>
      if heartbeatCheckTimer st then heartbeatCheck cfg now st else st
  | SweepTick now =>
      if transferCheckTimer st then checkTransferTimeout cfg now st else st
  | Closed => connection_on_close st
  | ChannelDown =>
      match connection st with
      | Some _ => set_connection (Some {| open := false |}) st
      | None => st
      end
  end.

Definition run (cfg : Config) (st : State) (evs : list Event) : State :=
  foldl (step cfg) st evs.

(** The messages of a list delivered in order, the [i]-th at the time
    [clock i]. *)
Definition arrivals (clock : nat -> Z) (msgs : list Message) : list Event :=
  imap (fun i m => Data (clock i) m) msgs.

(** ** Derived notions used in the statements *)

(** The [i]-th chunk that the loop of [sendFile] cuts. *)
Definition chunk (cfg : Config) (file : File.t) (i : nat) : bytes :=
  File.slice file (i * CHUNK_SIZE cfg)
    (Nat.min (i * CHUNK_SIZE cfg + CHUNK_SIZE cfg) (File.size file)).

(** The messages that one send appends to the channel. *)
Definition sendFile_messages (cfg : Config) (fileId : string) (file : File.t)
    (st : State) : list Message :=
  drop (length (sent st)) (sent (sendFile cfg fileId file st)).

(** The calls into the page that one send makes. *)
Definition sendFile_ui (cfg : Config) (fileId : string) (file : File.t)
    (st : State) : list UiEvent :=
  drop (length (ui st)) (ui (sendFile cfg fileId file st)).

(** The index and the byte length of every [file-chunk] message of a list. *)
Definition chunk_shapes (msgs : list Message) : list (Z * Z) :=
  omap (fun m =>
          match m with
          | FileChunk _ i data => Some (i, Z.of_nat (length data))
          | _ => None
          end) msgs.

(** The progress values that a list of calls exposes for a transfer. *)
Definition progress_of (fileId : string) (es : list UiEvent) : list Progress :=
  omap (fun e =>
          match e with
          | FileProgress f p => if decide (f = fileId) then Some p else None
          | _ => None
          end) es.

(** The artifacts that a list of calls hands to the page for a transfer. *)
Definition delivered (fileId : string) (es : list UiEvent) : list Blob :=
  omap (fun e =>
          match e with
          | FileCompleted f (Some url) _ =>
              if decide (f = fileId) then Some url else None
          | _ => None
          end) es.

(** A call that names the transfer. *)
Definition mentions (fileId : string) (e : UiEvent) : bool :=
  match e with
  | FileItem f _ _ _ | FileProgress f _ | FileCompleted f _ _
  | FileTimeout f => bool_decide (f = fileId)
  | _ => false
  end.

(** The error notices of a list of calls. *)
Definition error_toasts (es : list UiEvent) : list ToastText :=
  omap (fun e =>
          match e with
          | Toast message error => Some message
          | _ => None
          end) es.

Fixpoint non_decreasing (ps : list Progress) : bool :=
  match ps with
  | p :: ((q :: _) as rest) => progress_le p q && non_decreasing rest
  | _ => true
  end.

Fixpoint increasing (ps : list Progress) : bool :=
  match ps with
  | p :: ((q :: _) as rest) => progress_lt p q && increasing rest
  | _ => true
  end.

(** An event that is not a [file-meta] message for the transfer. *)
Definition not_meta (fileId : string) (ev : Event) : Prop :=
  match ev with
  | Data _ (FileMeta data) => Meta.fileId data ≠ fileId
  | _ => True
  end.

(** No call of the list names the transfer. *)
Definition quiet (fileId : string) (es : list UiEvent) : Prop :=
  Forall (fun e => mentions fileId e = false) es.

(** The calls that a sweep makes: the timeout status of a transfer that
    the map holds, and the notice that goes with it. *)
Definition sweep_notice (held : gmap string Inbound.t) (e : UiEvent) : Prop :=
  match e with
  | FileTimeout k => is_Some (held !! k)
  | Toast (FileTimedOut _) error => True
  | _ => False
  end.

(** What a sweep at [now] leaves of an entry. *)
Definition after_sweep (cfg : Config) (now : Z) (o : option Inbound.t)
  : option Inbound.t :=
  match o with
  | Some file => if timed_out cfg now file then None else Some file
  | None => None
  end.

(** The part of the state that a send leaves alone. *)
Definition session (st : State) :=
  (connection st, receivingFiles st, completedFiles st, lastHeartbeat st,
   (heartbeatTimer st, heartbeatCheckTimer st, transferCheckTimer st),
   textInput st).

Definition sendFile_meta (cfg : Config) (fileId : string) (file : File.t)
  : Meta.t :=
  {| Meta.fileId := fileId;
     Meta.name := File.name file;
     Meta.size := File.size file;
     Meta.fileType := File.type file;
     Meta.totalChunks := ceil_div (File.size file) (CHUNK_SIZE cfg) |}.

(** The ways in which an event can move a tracked transfer: it is dropped
    or left as it is, and nothing is exposed; or it has received a chunk,
    and the progress for its new byte count is exposed. *)
Definition moved (fileId : string) (e : Inbound.t) (st' : State)
    (new : list UiEvent) : Prop :=
  ((receivingFiles st' !! fileId = None ∨ receivingFiles st' !! fileId = Some e)
   ∧ progress_of fileId new = [])
  ∨ ∃ e',
      receivingFiles st' !! fileId = Some e'
      ∧ Inbound.meta e' = Inbound.meta e
      ∧ Inbound.receivedSize e ≤ Inbound.receivedSize e'
      ∧ progress_of fileId new
        = [percent (Inbound.receivedSize e') (Meta.size (Inbound.meta e))].


(** ** Sample data for the examples *)

Definition small_chunks : Config :=
  {| CHUNK_SIZE := 2;
     HEARTBEAT_INTERVAL := 5000;
     HEARTBEAT_TIMEOUT := 15000;
     TRANSFER_TIMEOUT := 30000 |}.

Definition five_bytes : File.t :=
  {| File.name := "a.bin";
     File.type := "application/octet-stream";
     File.content := [Byte.x01; Byte.x02; Byte.x03; Byte.x04; Byte.x05] |}.

(** A page whose connection has just opened, at time 1000. *)
Definition online : State :=
  connection_on_open 1000 (set_connection (Some {| open := true |}) initial).

(** A transfer of two chunks of which only chunk 0 has arrived. *)
Definition one_of_two : State :=
  run CONFIG online
    [Data 2000 (FileMeta {| Meta.fileId := "X";
                            Meta.name := "x.bin";
                            Meta.size := 4;
                            Meta.fileType := "";
                            Meta.totalChunks := 2 |});
     Data 2001 (FileChunk "X" 0 [Byte.x01; Byte.x02])].

(** The entry of that transfer. *)
Definition one_of_two_entry : Inbound.t :=
  {| Inbound.meta := {| Meta.fileId := "X";
                        Meta.name := "x.bin";
                        Meta.size := 4;
                        Meta.fileType := "";
                        Meta.totalChunks := 2 |};
     Inbound.chunks := [Some [Byte.x01; Byte.x02]; None];
     Inbound.receivedSize := 2;
     Inbound.lastUpdate := 2001 |}.

(** The same transfer announced under the identifier 'constructor'. *)
Definition one_of_two_constructor : State :=
  run CONFIG online
    [Data 2000 (FileMeta {| Meta.fileId := "constructor";
                            Meta.name := "x.bin";
                            Meta.size := 4;
                            Meta.fileType := "";
                            Meta.totalChunks := 2 |});
     Data 2001 (FileChunk "constructor" 0 [Byte.x01; Byte.x02])].

(** Three transfers announced as 'b', 'a' and '7', in this order. *)
Definition three_announced : State :=
  run CONFIG online
    [Data 2000 (FileMeta {| Meta.fileId := "b"; Meta.name := "b.bin";
                            Meta.size := 1; Meta.fileType := "";
                            Meta.totalChunks := 1 |});
     Data 2001 (FileMeta {| Meta.fileId := "a"; Meta.name := "a.bin";
                            Meta.size := 1; Meta.fileType := "";
                            Meta.totalChunks := 1 |});
     Data 2002 (FileMeta {| Meta.fileId := "7"; Meta.name := "7.bin";
                            Meta.size := 1; Meta.fileType := "";
                            Meta.totalChunks := 1 |})].

(** A page on which the channel has dropped its [open] flag, and the
    liveness check that runs 19 s after the last message. *)
Definition silent : State := step CONFIG online ChannelDown.

Definition torn_down : State := step CONFIG silent (CheckTick 20000).

(** ** More of the page *)

(** [completedFiles] is read as the finite map of its own properties.
    Storing under the name [__proto__], in either object, is read as
    creating a property like any other. *)

(** [downloadFile(url, fileName, fileId)], as the download button of a
    received file calls it. Its calls into the page are of their own kind:
    the click on the temporary link, the status line set to downloaded, and
    the notice that the download started. A [fileId] that is the empty
    string is falsy. *)
Inductive DownloadCall :=
| LinkClicked (url : Blob) (fileName : string)
| DownloadedShown (fileId : string)
| DownloadStarted (fileName : string).

Definition mark_downloaded (c : Completed.t) : Completed.t :=
  {| Completed.name := Completed.name c;
     Completed.size := Completed.size c;
     Completed.url := Completed.url c;
     Completed.downloaded := true |}.

Definition downloadFile (url : Blob) (fileName fileId : string) (st : State)
  : State * list DownloadCall :=
  let calls := [LinkClicked url fileName] in
  let r :=
    if negb (String.eqb fileId "") then
      match completedFiles st !! fileId with
      | Some c =>
          (set_completedFiles
             (<[fileId := mark_downloaded c]> (completedFiles st)) st,
           calls ++ [DownloadedShown fileId])
      | None => (st, calls)
      end
    else (st, calls) in
  (r.1, r.2 ++ [DownloadStarted fileName]).

(** The theme of the page: the [data-theme] attribute of the document, the
    item 'p2p-theme' of the local storage, and what the media query
    [prefers-color-scheme: dark] answers. *)
Module Theme.
Record t := {
  attribute : option string;
  stored : option string;
  prefersDark : bool
}.
End Theme.

(** A string that may be [null] is truthy when it is there and not empty. *)
Definition truthy (o : option string) : bool :=
  match o with
  | Some s => negb (String.eqb s "")
  | None => false
  end.

Definition initTheme (p : Theme.t) : Theme.t :=
  let savedTheme := Theme.stored p in
  let prefersDark := Theme.prefersDark p in
  if truthy savedTheme then
    {| Theme.attribute := savedTheme;
       Theme.stored := Theme.stored p;
       Theme.prefersDark := Theme.prefersDark p |}
  else if prefersDark then
    {| Theme.attribute := Some "dark";
       Theme.stored := Theme.stored p;
       Theme.prefersDark := Theme.prefersDark p |}
  else p.

Definition toggleTheme (p : Theme.t) : Theme.t :=
  let currentTheme := Theme.attribute p in
  let newTheme :=
    match currentTheme with
    | Some t => if String.eqb t "dark" then "light" else "dark"
    | None => "dark"
    end in
  {| Theme.attribute := Some newTheme;
     Theme.stored := Some newTheme;
     Theme.prefersDark := Theme.prefersDark p |}.

(** [CONFIG.ROOM_CODE_LENGTH] *)
Definition ROOM_CODE_LENGTH : nat := 6.

(** [generateRoomCode]. [random k] is what the [k]-th call of
    [Math.random()] returns, as an exact rational. An index outside the
    string reads as [undefined], which [join] writes as nothing. *)
Definition room_chars : string := "ABCDEFGHIJKLMNOPQRSTUVWXYZ0123456789".

Definition char_at (s : string) (i : Z) : string :=
  if (i <? 0)%Z then ""
  else
    match String.get (Z.to_nat i) s with
    | Some c => String c ""
    | None => ""
    end.

Definition generateRoomCode (random : nat -> Q) : string :=
  String.concat ""
    (map (fun k =>
            char_at room_chars
              (Qfloor (random k
                       * inject_Z (Z.of_nat (String.length room_chars)))%Q))
       (seq 0 ROOM_CODE_LENGTH)).

(** ** Further notions used in the statements *)

(** The transfer that a message is about, if it is about one. *)
Definition message_id (m : Message) : option string :=
  match m with
  | FileMeta data => Some (Meta.fileId data)
  | FileChunk fileId _ _ => Some fileId
  | FileComplete fileId => Some fileId
  | _ => None
  end.

(** An event that is a message about none or another transfer. *)
Definition about_other (fileId : string) (ev : Event) : Prop :=
  match ev with
  | Data _ m => message_id m ≠ Some fileId
  | _ => False
  end.

(** An event that is one of the three timers firing. *)
Definition is_tick (ev : Event) : Prop :=
  match ev with
  | PingTick _ | CheckTick _ | SweepTick _ => True
  | _ => False
  end.

(** An event that is a message arriving. *)
Definition is_data (ev : Event) : Prop :=
  match ev with
  | Data _ _ => True
  | _ => False
  end.

(** The bytes that the [file-chunk] messages of a list of events carry
    for a transfer. *)
Fixpoint chunk_bytes (fileId : string) (evs : list Event) : nat :=
  match evs with
  | Data _ (FileChunk f _ d) :: rest =>
      (if decide (f = fileId) then length d else 0) + chunk_bytes fileId rest
  | _ :: rest => chunk_bytes fileId rest
  | [] => 0
  end.


(** The [file-chunk] messages of a send, in the order of a list of
    indices. *)
Definition chunks_in_order (cfg : Config) (fileId : string) (file : File.t)
    (order : list nat) : list Message :=
  map (fun i => FileChunk fileId (Z.of_nat i) (chunk cfg file i)) order.

(** The messages on which [handleData] throws: a [file-chunk] or a
    [file-complete] whose identifier names no property of [receivingFiles]
    of its own, but an inherited one. *)
Definition misfires (data : Message) (st : State) : bool :=
  match data with
  | FileChunk fileId _ _ | FileComplete fileId =>
      bool_decide (receivingFiles st !! fileId = None) && inherited fileId
  | _ => false
  end.

(** How a call ends that leaves the state [st] and throws or not. *)
Definition ends (thrown : bool) (st : State) : Outcome :=
  if thrown then throws st else returns st.

(** The record of the order of creation is exact: it lists the own
    properties of [receivingFiles], each once. *)
Definition keys_recorded (st : State) : Prop :=
  NoDup (receivingKeys st)
  ∧ ∀ k, k ∈ receivingKeys st ↔ is_Some (receivingFiles st !! k).


(** What the receive path leaves alone. *)
Definition local_side (st : State) :=
  (connection st, sent st, textInput st,
   (heartbeatTimer st, heartbeatCheckTimer st, transferCheckTimer st)).

(** * Proofs *)

(** ** Arithmetic of chunking *)

Section CeilDiv.
Variables a b : nat.
Hypothesis Hb : 1 ≤ b.

Lemma ceil_div_upper : a ≤ ceil_div a b * b.
Proof.
  unfold ceil_div.
  pose proof (Nat.div_mod_eq a b) as Hdm.
  pose proof (Nat.mod_upper_bound a b ltac:(lia)) as Hlt.
  destruct (Nat.eqb_spec (a mod b) 0); nia.
Qed.

Lemma ceil_div_least (m : nat) : a ≤ m * b → ceil_div a b ≤ m.
Proof.
  unfold ceil_div. intros Hm.
  pose proof (Nat.div_mod_eq a b) as Hdm.
  pose proof (Nat.mod_upper_bound a b ltac:(lia)) as Hlt.
  destruct (Nat.eqb_spec (a mod b) 0); nia.
Qed.

Lemma ceil_div_below (i : nat) : i < ceil_div a b → i * b < a.
Proof.
  intros Hi. destruct (Nat.le_gt_cases a (i * b)) as [Hle|]; [|done].
  apply ceil_div_least in Hle. lia.
Qed.

Lemma ceil_div_zero : a = 0 → ceil_div a b = 0.
Proof.
  intros ->. unfold ceil_div.
  rewrite Nat.Div0.div_0_l, Nat.Div0.mod_0_l. done.
Qed.

End CeilDiv.

(** ** The chunks of a file *)

Lemma chunk_window cfg file i :
  chunk cfg file i
  = take (CHUNK_SIZE cfg) (drop (i * CHUNK_SIZE cfg) (File.content file)).
Proof.
  unfold chunk, File.slice, File.size.
  set (cs := CHUNK_SIZE cfg). set (l := File.content file).
  destruct (Nat.le_gt_cases (i * cs + cs) (length l)) as [Hle|Hgt].
  - rewrite Nat.min_l by done. f_equal. lia.
  - rewrite Nat.min_r by lia.
    rewrite !take_ge; [done| |]; rewrite length_drop; lia.
Qed.

Lemma chunk_length cfg file i :
  length (chunk cfg file i)
  = Nat.min (CHUNK_SIZE cfg) (File.size file - i * CHUNK_SIZE cfg).
Proof.
  rewrite chunk_window, length_take, length_drop. done.
Qed.

Lemma chunks_concat cfg file k :
  concat (map (chunk cfg file) (seq 0 k))
  = take (k * CHUNK_SIZE cfg) (File.content file).
Proof.
  induction k as [|k IH]; [done|].
  rewrite seq_S, map_app, concat_app, IH. simpl.
  rewrite app_nil_r, chunk_window, take_take_drop. f_equal. lia.
Qed.

Lemma chunks_concat_all cfg file :
  1 ≤ CHUNK_SIZE cfg →
  concat (map (chunk cfg file)
            (seq 0 (ceil_div (File.size file) (CHUNK_SIZE cfg))))
  = File.content file.
Proof.
  intros Hcs. rewrite chunks_concat. apply take_ge.
  apply ceil_div_upper. done.
Qed.

(** ** What one send emits *)

Lemma sendFile_turn_eq cfg fileId file total st k i :
  sendFile_turn cfg fileId file total (st, k) i
  = (updateFileProgress fileId (percent (S k) total)
       (connection_send (FileChunk fileId (Z.of_nat i) (chunk cfg file i)) st),
     S k).
Proof. reflexivity. Qed.

Lemma sendFile_loop cfg fileId file total n : ∀ a st k,
  let r := foldl (sendFile_turn cfg fileId file total) (st, k) (seq a n) in
  sent r.1
  = sent st
    ++ map (fun i => FileChunk fileId (Z.of_nat i) (chunk cfg file i)) (seq a n)
  ∧ ui r.1
    = ui st
      ++ map (fun j => FileProgress fileId (percent j total)) (seq (S k) n)
  ∧ r.2 = k + n
  ∧ session r.1 = session st.
Proof.
  induction n as [|n IH]; intros a st k; cbn [foldl seq map].
  - rewrite !app_nil_r. split_and!; [done|done|cbn; lia|done].
  - rewrite sendFile_turn_eq.
    edestruct IH as (Hs & Hu & Hk & Hf).
    rewrite Hs, Hu, Hk, Hf. cbn [sent ui updateFileProgress tell connection_send].
    rewrite <- !app_assoc. split_and!; [done|done|lia|done].
Qed.

Lemma sendFile_sent cfg fileId file st :
  sent (sendFile cfg fileId file st)
  = sent st
    ++ FileMeta (sendFile_meta cfg fileId file)
       :: map (fun i => FileChunk fileId (Z.of_nat i) (chunk cfg file i))
            (seq 0 (ceil_div (File.size file) (CHUNK_SIZE cfg)))
       ++ [FileComplete fileId].
Proof.
  unfold sendFile. simpl.
  match goal with
  | |- context [foldl ?f (?s, ?k) (seq ?a ?n)] =>
      destruct (sendFile_loop cfg fileId file n n a s k) as (Hs & _)
  end.
  simpl in Hs. rewrite Hs. simpl. rewrite <- !app_assoc. done.
Qed.

Lemma sendFile_messages_eq cfg fileId file st :
  sendFile_messages cfg fileId file st
  = FileMeta (sendFile_meta cfg fileId file)
    :: map (fun i => FileChunk fileId (Z.of_nat i) (chunk cfg file i))
         (seq 0 (ceil_div (File.size file) (CHUNK_SIZE cfg)))
    ++ [FileComplete fileId].
Proof.
  unfold sendFile_messages. rewrite sendFile_sent, drop_app_length. done.
Qed.

Lemma sendFile_ui_eq cfg fileId file st :
  sendFile_ui cfg fileId file st
  = FileItem fileId (File.name file) (File.size file) sending
    :: map (fun j =>
              FileProgress fileId
                (percent j (ceil_div (File.size file) (CHUNK_SIZE cfg))))
         (seq 1 (ceil_div (File.size file) (CHUNK_SIZE cfg)))
    ++ [FileCompleted fileId None None; Toast (FileSent (File.name file)) success].
Proof.
  unfold sendFile_ui, sendFile. simpl.
  match goal with
  | |- context [foldl ?f (?s, ?k) (seq ?a ?n)] =>
      destruct (sendFile_loop cfg fileId file n n a s k) as (_ & Hu & _)
  end.
  simpl in Hu. rewrite Hu. simpl.
  rewrite <- !app_assoc. simpl. rewrite drop_app_length. done.
Qed.

Lemma chunk_shapes_chunks cfg fileId file n : ∀ a,
  chunk_shapes
    (map (fun i => FileChunk fileId (Z.of_nat i) (chunk cfg file i)) (seq a n))
  = map (fun i => (Z.of_nat i, Z.of_nat (length (chunk cfg file i)))) (seq a n).
Proof.
  induction n as [|n IH]; intros a; [done|]. simpl.
  unfold chunk_shapes in *. simpl. rewrite IH. done.
Qed.

Lemma chunk_shapes_framed (data : Meta.t) fileId msgs :
  chunk_shapes (FileMeta data :: msgs ++ [FileComplete fileId])
  = chunk_shapes msgs.
Proof.
  unfold chunk_shapes. simpl. rewrite omap_app. simpl. apply app_nil_r.
Qed.

(** ** The messages of a send *)

(** C7. With a chunk size of at least 1, one send computes
    [totalChunks] as the ceiling of [size / chunkSize] and emits one
    [file-meta], then the [file-chunk] messages with the indices
    [0 .. totalChunks - 1] in increasing order, the [i]-th carrying the
    window of [chunkSize] bytes at offset [i * chunkSize], then one
    [file-complete]. Every chunk but the last has exactly [chunkSize] bytes
    and the last has between 1 and [chunkSize]. With the configured size
    65536, a file of 150000 bytes gives the chunks 0, 1, 2 of 65536, 65536
    and 18928 bytes. *)
Theorem sendFile_messages_in_order cfg fileId file st :
  1 ≤ CHUNK_SIZE cfg →
  let totalChunks := ceil_div (File.size file) (CHUNK_SIZE cfg) in
  (File.size file ≤ totalChunks * CHUNK_SIZE cfg
   ∧ ∀ m, File.size file ≤ m * CHUNK_SIZE cfg → totalChunks ≤ m)
  ∧ sendFile_messages cfg fileId file st
    = [FileMeta {| Meta.fileId := fileId;
                   Meta.name := File.name file;
                   Meta.size := File.size file;
                   Meta.fileType := File.type file;
                   Meta.totalChunks := totalChunks |}]
      ++ map (fun i =>
                FileChunk fileId (Z.of_nat i)
                  (take (CHUNK_SIZE cfg)
                     (drop (i * CHUNK_SIZE cfg) (File.content file))))
           (seq 0 totalChunks)
      ++ [FileComplete fileId]
  ∧ (∀ i, S i < totalChunks →
       length (take (CHUNK_SIZE cfg)
                 (drop (i * CHUNK_SIZE cfg) (File.content file)))
       = CHUNK_SIZE cfg)
  ∧ (∀ i, S i = totalChunks →
       1 ≤ length (take (CHUNK_SIZE cfg)
                     (drop (i * CHUNK_SIZE cfg) (File.content file)))
         ≤ CHUNK_SIZE cfg)
  ∧ (∀ big : File.t,
       Z.of_nat (File.size big) = 150000%Z →
       ceil_div (File.size big) (CHUNK_SIZE CONFIG) = 3
       ∧ chunk_shapes (sendFile_messages CONFIG fileId big st)
         = [(0, 65536); (1, 65536); (2, 18928)]%Z).
Proof.
  intros Hcs totalChunks. split_and!.
  - apply ceil_div_upper. done.
  - intros m. apply ceil_div_least. done.
  - rewrite sendFile_messages_eq. cbn [app]. do 2 f_equal.
    apply map_ext. intros i. rewrite chunk_window. done.
  - intros i Hi. rewrite length_take, length_drop.
    assert (S i * CHUNK_SIZE cfg < File.size file) as Hlt
      by (apply ceil_div_below; [done|]; fold totalChunks; lia).
    unfold File.size in Hlt. lia.
  - intros i Hi. rewrite length_take, length_drop.
    assert (i * CHUNK_SIZE cfg < File.size file) as Hlt
      by (apply ceil_div_below; [done|]; fold totalChunks; lia).
    unfold File.size in Hlt. lia.
  - intros big Hbig.
    rewrite sendFile_messages_eq, chunk_shapes_framed, chunk_shapes_chunks.
    erewrite map_ext; [|intros i; rewrite chunk_length; reflexivity].
    assert (Z.of_nat (CHUNK_SIZE CONFIG) = 65536%Z) as Hsz
      by (cbn [CHUNK_SIZE CONFIG]; lia).
    generalize dependent (CHUNK_SIZE CONFIG). intros cs Hsz.
    assert (ceil_div (File.size big) cs = 3) as ->.
    { apply Nat.le_antisymm.
      - apply ceil_div_least; lia.
      - pose proof (ceil_div_upper (File.size big) cs ltac:(lia)). nia. }
    split; [done|]. cbn [seq map]. repeat f_equal; lia.
Qed.

Lemma sendFile_messages_in_order_example :
  sendFile_messages small_chunks "f1" five_bytes online
  = [FileMeta {| Meta.fileId := "f1";
                 Meta.name := "a.bin";
                 Meta.size := 5;
                 Meta.fileType := "application/octet-stream";
                 Meta.totalChunks := 3 |};
     FileChunk "f1" 0 [Byte.x01; Byte.x02];
     FileChunk "f1" 1 [Byte.x03; Byte.x04];
     FileChunk "f1" 2 [Byte.x05];
     FileComplete "f1"].
Proof.
  destruct (sendFile_messages_in_order small_chunks "f1" five_bytes online)
    as (_ & H & _); [simpl; lia|].
  exact H.
Defined.

(** ** The handlers, case by case *)

Lemma array_store_eq a i x :
  array_store a i x
  = if (i <? 0)%Z then a
    else if Z.to_nat i <? length a then <[Z.to_nat i := Some x]> a
    else if (i <? 4294967295)%Z then
      a ++ replicate (Z.to_nat i - length a) None ++ [Some x]
    else a.
Proof.
  unfold array_store. destruct (Z.ltb_spec i 0); [done|].
  destruct (Z.ltb_spec i (Z.of_nat (length a))),
    (Nat.ltb_spec (Z.to_nat i) (length a)); try done; lia.
Qed.

Lemma array_store_next (pre : list bytes) (m : nat) (d : bytes) :
  array_store (map Some pre ++ replicate (S m) None) (Z.of_nat (length pre)) d
  = map Some (pre ++ [d]) ++ replicate m None.
Proof.
  rewrite array_store_eq.
  destruct (Z.ltb_spec (Z.of_nat (length pre)) 0) as [Hneg|_]; [lia|].
  rewrite Nat2Z.id.
  destruct (Nat.ltb_spec (length pre) (length (map Some pre ++ replicate (S m) None)))
    as [_|Hge].
  - replace (length pre) with (length (map Some pre) + 0) at 1
      by (rewrite length_map; lia).
    rewrite insert_app_r. simpl. rewrite map_app, <- app_assoc. done.
  - rewrite length_app, length_map, length_replicate in Hge. lia.
Qed.

Lemma receiveFileChunk_absent now fileId i d st :
  receivingFiles st !! fileId = None →
  receiveFileChunk now fileId i d st = st.
Proof.
  intros H.
  unfold receiveFileChunk, receiveFileChunk_outcome, receivingFiles_get.
  rewrite H. by destruct (inherited fileId).
Qed.

Lemma receiveFileComplete_absent fileId st :
  receivingFiles st !! fileId = None →
  receiveFileComplete fileId st = st.
Proof.
  intros H.
  unfold receiveFileComplete, receiveFileComplete_outcome, receivingFiles_get.
  rewrite H. by destruct (inherited fileId).
Qed.

Lemma receiveFileChunk_present now fileId i d st e :
  receivingFiles st !! fileId = Some e →
  receiveFileChunk now fileId i d st
  = updateFileProgress fileId
      (percent (Inbound.receivedSize e + length d) (Meta.size (Inbound.meta e)))
      (set_receivingFiles
         (<[fileId :=
              {| Inbound.meta := Inbound.meta e;
                 Inbound.chunks := array_store (Inbound.chunks e) i d;
                 Inbound.receivedSize := Inbound.receivedSize e + length d;
                 Inbound.lastUpdate := now |}]> (receivingFiles st)) st).
Proof.
  intros H.
  unfold receiveFileChunk, receiveFileChunk_outcome, receivingFiles_get.
  rewrite H. done.
Qed.

Lemma receiveFileComplete_present fileId st e :
  receivingFiles st !! fileId = Some e →
  receiveFileComplete fileId st
  = receivingFiles_delete fileId
      (showToast (FileReceived (Meta.name (Inbound.meta e))) success
         (updateFileStatus fileId
            (Some (new_Blob (Inbound.chunks e) (Meta.fileType (Inbound.meta e))))
            (Some (Meta.name (Inbound.meta e)))
            (set_completedFiles
               (<[fileId :=
                    {| Completed.name := Meta.name (Inbound.meta e);
                       Completed.size := Meta.size (Inbound.meta e);
                       Completed.url :=
                         new_Blob (Inbound.chunks e)
                           (Meta.fileType (Inbound.meta e));
                       Completed.downloaded := false |}]> (completedFiles st))
               st))).
Proof.
  intros H.
  unfold receiveFileComplete, receiveFileComplete_outcome, receivingFiles_get.
  rewrite H. done.
Qed.

Lemma handleData_state now data st :
  handleData now data st = state_after (handleData_outcome now data st).
Proof. by destruct data. Qed.

(** [handleData] throws on the messages of [misfires] and on no other. *)
Lemma handleData_outcome_ends now data st :
  handleData_outcome now data st
  = ends (misfires data st) (handleData now data st).
Proof.
  destruct data as [ts|content ts|m|g i d|g|ty]; try done.
  - unfold handleData_outcome, handleData, receiveFileChunk,
      receiveFileChunk_outcome, receivingFiles_get, misfires.
    cbn [receivingFiles set_lastHeartbeat].
    destruct (receivingFiles st !! g) as [e|]; [done|].
    rewrite bool_decide_eq_true_2 by done. by destruct (inherited g).
  - unfold handleData_outcome, handleData, receiveFileComplete,
      receiveFileComplete_outcome, receivingFiles_get, misfires.
    cbn [receivingFiles set_lastHeartbeat].
    destruct (receivingFiles st !! g) as [e|]; [done|].
    rewrite bool_decide_eq_true_2 by done. by destruct (inherited g).
Qed.

(** ** A transfer whose chunks arrive in index order *)

Lemma receive_chunks_in_order cfg fileId (ds : list bytes) :
  ∀ (clock : nat → Z) st e (pre : list bytes) (r : nat),
  receivingFiles st !! fileId = Some e →
  Inbound.chunks e = map Some pre ++ replicate (length ds + r) None →
  let st' :=
    run cfg st
      (imap (fun i d =>
               Data (clock i) (FileChunk fileId (Z.of_nat (length pre + i)) d))
         ds) in
  (∃ t,
     receivingFiles st'
     = <[fileId :=
           {| Inbound.meta := Inbound.meta e;
              Inbound.chunks := map Some (pre ++ ds) ++ replicate r None;
              Inbound.receivedSize := Inbound.receivedSize e + length (concat ds);
              Inbound.lastUpdate := t |}]> (receivingFiles st))
  ∧ completedFiles st' = completedFiles st
  ∧ ui st'
    = ui st
      ++ imap (fun i _ =>
                 FileProgress fileId
                   (percent
                      (Inbound.receivedSize e + length (concat (take (S i) ds)))
                      (Meta.size (Inbound.meta e))))
           ds.
Proof.
  induction ds as [|d ds IH]; intros clock st e pre r He Hch st'.
  - subst st'. simpl. rewrite !app_nil_r. split_and!; [|done|done].
    exists (Inbound.lastUpdate e). rewrite Nat.add_0_r.
    simpl in Hch. rewrite <- Hch.
    symmetry. apply insert_id. rewrite He. by destruct e.
  - subst st'. rewrite imap_cons. unfold run. cbn [foldl step handleData].
    rewrite (receiveFileChunk_present _ _ _ _ _ e) by exact He.
    set (e1 := {| Inbound.meta := Inbound.meta e;
                  Inbound.chunks := _;
                  Inbound.receivedSize := _;
                  Inbound.lastUpdate := _ |}).
    set (st1 := updateFileProgress _ _ _).
    assert (receivingFiles st1 !! fileId = Some e1) as He1
      by (subst st1; cbn; apply lookup_insert_eq).
    assert (Inbound.chunks e1
            = map Some (pre ++ [d]) ++ replicate (length ds + r) None) as Hch1.
    { subst e1. cbn [Inbound.chunks]. rewrite Hch, Nat.add_0_r.
      apply array_store_next. }
    destruct (IH (clock ∘ S) st1 e1 (pre ++ [d]) r He1 Hch1)
      as ((t & Hrf) & Hcf & Hui).
    assert (imap
              ((fun i d0 =>
                  Data (clock i)
                    (FileChunk fileId (Z.of_nat (length pre + i)) d0)) ∘ S) ds
            = imap
                (fun i d0 =>
                   Data ((clock ∘ S) i)
                     (FileChunk fileId (Z.of_nat (length (pre ++ [d]) + i)) d0))
                ds) as ->.
    { apply imap_ext. intros i x _. simpl. rewrite length_app. simpl.
      do 3 f_equal. lia. }
    split_and!.
    + exists t. unfold run in Hrf. rewrite Hrf. subst st1. cbn.
      rewrite insert_insert_eq. do 2 f_equal.
      * rewrite <- app_assoc. done.
      * rewrite length_app. lia.
    + unfold run in Hcf. rewrite Hcf. done.
    + unfold run in Hui. rewrite Hui. subst st1 e1. cbn.
      rewrite <- app_assoc. simpl. rewrite app_nil_r. do 2 f_equal.
      apply imap_ext. intros i x _. simpl. rewrite !length_app.
      do 2 f_equal. lia.
Qed.

Lemma imap_chunk_messages cfg fileId file {B} n : ∀ a (g : nat → Message → B),
  imap g
    (map (fun i => FileChunk fileId (Z.of_nat i) (chunk cfg file i)) (seq a n))
  = imap (fun i d => g i (FileChunk fileId (Z.of_nat (a + i)) d))
      (map (chunk cfg file) (seq a n)).
Proof.
  induction n as [|n IH]; intros a g; [done|].
  cbn [seq map]. rewrite !imap_cons, Nat.add_0_r. f_equal.
  rewrite IH. apply imap_ext. intros i x _. simpl.
  replace (S (a + i)) with (a + S i) by lia. done.
Qed.

Lemma concat_map_Some (ds : list bytes) :
  concat (map blob_part (map Some ds)) = concat ds.
Proof. rewrite map_map. simpl. rewrite map_id. done. Qed.

Lemma take_chunks cfg file n i :
  i < n →
  concat (take (S i) (map (chunk cfg file) (seq 0 n)))
  = take (S i * CHUNK_SIZE cfg) (File.content file).
Proof.
  intros Hi. rewrite <- chunks_concat. f_equal.
  change (map (chunk cfg file) (seq 0 n)) with (chunk cfg file <$> seq 0 n).
  rewrite <- fmap_take, take_seq, Nat.min_l by lia. done.
Qed.

(** The state of the receiver after the messages of one send, delivered in
    the order of the send. *)
Lemma receive_whole_send cfg fileId file (clock : nat → Z) st st_s :
  1 ≤ CHUNK_SIZE cfg →
  let st' :=
    run cfg st (arrivals clock (sendFile_messages cfg fileId file st_s)) in
  let blob :=
    {| blob_bytes := File.content file; blob_type := File.type file |} in
  completedFiles st'
  = <[fileId := {| Completed.name := File.name file;
                   Completed.size := File.size file;
                   Completed.url := blob;
                   Completed.downloaded := false |}]> (completedFiles st)
  ∧ receivingFiles st' = delete fileId (receivingFiles st)
  ∧ ui st'
    = ui st
      ++ FileItem fileId (File.name file) (File.size file) receiving
         :: map (fun k =>
                   FileProgress fileId
                     (percent (Nat.min (k * CHUNK_SIZE cfg) (File.size file))
                        (File.size file)))
              (seq 1 (ceil_div (File.size file) (CHUNK_SIZE cfg)))
         ++ [FileCompleted fileId (Some blob) (Some (File.name file));
             Toast (FileReceived (File.name file)) success].
Proof.
  intros Hcs st' blob. subst st'.
  rewrite sendFile_messages_eq. unfold arrivals.
  set (n := ceil_div (File.size file) (CHUNK_SIZE cfg)).
  rewrite imap_cons, imap_app, imap_chunk_messages. unfold run.
  cbn [foldl]. rewrite foldl_app.
  set (m := sendFile_meta cfg fileId file).
  set (e0 := {| Inbound.meta := m;
                Inbound.chunks := new_Array n;
                Inbound.receivedSize := 0;
                Inbound.lastUpdate := clock 0 |}).
  set (st1 := step cfg st (Data (clock 0) (FileMeta m))).
  assert (receivingFiles st1 = <[fileId := e0]> (receivingFiles st)) as Hrf1
    by done.
  assert (completedFiles st1 = completedFiles st) as Hcf1 by done.
  assert (ui st1
          = ui st ++ [FileItem fileId (File.name file) (File.size file) receiving])
    as Hui1 by done.
  clearbody st1.
  set (ds := map (chunk cfg file) (seq 0 n)).
  assert (length ds = n) as Hlen
    by (subst ds; rewrite length_map, length_seq; done).
  destruct (receive_chunks_in_order cfg fileId ds
              (fun i => clock (S i)) st1 e0 [] 0) as ((t & Hrf2) & Hcf2 & Hui2).
  { rewrite Hrf1. apply lookup_insert_eq. }
  { subst e0. cbn. rewrite Hlen, Nat.add_0_r. done. }
  unfold run in *. cbn [length Nat.add app] in *.
  match goal with
  | H : receivingFiles (foldl _ _ ?l) = _ |- context [foldl _ _ ?l'] =>
      change l' with l
  end.
  set (st2 := foldl (step cfg) st1 _) in *. clearbody st2.
  cbn [imap foldl]. unfold compose. cbn [step handleData].
  set (e2 := {| Inbound.meta := Inbound.meta e0;
                Inbound.chunks := _;
                Inbound.receivedSize := _;
                Inbound.lastUpdate := t |}) in Hrf2.
  rewrite (receiveFileComplete_present _ _ e2)
    by (cbn; rewrite Hrf2; apply lookup_insert_eq).
  assert (new_Blob (Inbound.chunks e2) (Meta.fileType (Inbound.meta e2)) = blob)
    as ->.
  { subst e2 blob. cbn. unfold new_Blob. f_equal.
    rewrite app_nil_r, concat_map_Some. apply chunks_concat_all. done. }
  cbn. rewrite Hcf2, Hcf1, Hrf2, Hrf1, Hui2, Hui1. split_and!.
  - done.
  - rewrite !delete_insert_eq. done.
  - rewrite <- !app_assoc. cbn. do 2 f_equal. f_equal.
    rewrite <- Hlen.
    change (map ?f (seq 1 (length ds))) with (f <$> seq 1 (length ds)).
    rewrite <- imap_seq. apply imap_ext. intros i x Hx. cbn.
    apply lookup_lt_Some in Hx. rewrite Hlen in Hx. subst ds.
    rewrite take_chunks by done. rewrite length_take. done.
Qed.

(** ** Split, then assemble *)

(** C1. For every file and every chunk size of at least 1: the chunks
    that the send loop cuts, assembled from a complete slot array, give the
    content of the file; and a receiver that is delivered the messages of
    one send, in the order of the send, records under the transfer's
    identifier a completed file whose blob holds the content byte for byte.
    An empty file is sent as [file-meta] and [file-complete] with no chunk
    in between. *)
Theorem send_then_receive_roundtrip cfg fileId file (clock : nat → Z) st_s st :
  1 ≤ CHUNK_SIZE cfg →
  let totalChunks := ceil_div (File.size file) (CHUNK_SIZE cfg) in
  let msgs := sendFile_messages cfg fileId file st_s in
  let st' := run cfg st (arrivals clock msgs) in
  blob_bytes
    (new_Blob (map (fun i => Some (chunk cfg file i)) (seq 0 totalChunks))
       (File.type file))
  = File.content file
  ∧ completedFiles st' !! fileId
    = Some {| Completed.name := File.name file;
              Completed.size := File.size file;
              Completed.url :=
                {| blob_bytes := File.content file;
                   blob_type := File.type file |};
              Completed.downloaded := false |}
  ∧ receivingFiles st' !! fileId = None
  ∧ (File.content file = [] →
     msgs
     = [FileMeta {| Meta.fileId := fileId;
                    Meta.name := File.name file;
                    Meta.size := 0;
                    Meta.fileType := File.type file;
                    Meta.totalChunks := 0 |};
        FileComplete fileId]).
Proof.
  intros Hcs totalChunks msgs st'.
  destruct (receive_whole_send cfg fileId file clock st st_s Hcs)
    as (Hcf & Hrf & _).
  split_and!.
  - cbn. rewrite <- (map_map (chunk cfg file) Some), concat_map_Some.
    apply chunks_concat_all. done.
  - subst st' msgs. rewrite Hcf. apply lookup_insert_eq.
  - subst st' msgs. rewrite Hrf. apply lookup_delete_eq.
  - intros Hnil. subst msgs. rewrite sendFile_messages_eq.
    unfold sendFile_meta, File.size. rewrite Hnil. cbn [length].
    rewrite ceil_div_zero by done. done.
Qed.

Lemma send_then_receive_roundtrip_example :
  completedFiles
    (run small_chunks online
       (arrivals Z.of_nat (sendFile_messages small_chunks "f1" five_bytes online)))
  !! "f1"
  = Some {| Completed.name := "a.bin";
            Completed.size := 5;
            Completed.url :=
              {| blob_bytes := [Byte.x01; Byte.x02; Byte.x03; Byte.x04; Byte.x05];
                 blob_type := "application/octet-stream" |};
            Completed.downloaded := false |}.
Proof.
  destruct (send_then_receive_roundtrip small_chunks "f1" five_bytes
              Z.of_nat online online) as (_ & H & _); [simpl; lia|].
  exact H.
Defined.

(** ** Completion with unset slots *)




(** ** The order of [for ... in] *)

Lemma insert_by_index_perm k ks : insert_by_index k ks ≡ₚ k :: ks.
Proof.
  induction ks as [|k' ks IH]; [done|]. cbn [insert_by_index].
  destruct (_ <=? _)%N; [done|]. rewrite IH. apply Permutation_swap.
Qed.

Lemma sort_by_index_perm ks : sort_by_index ks ≡ₚ ks.
Proof.
  induction ks as [|k ks IH]; [done|]. cbn [sort_by_index foldr].
  rewrite insert_by_index_perm. apply Permutation_skip. exact IH.
Qed.

Lemma property_order_perm ks : property_order ks ≡ₚ ks.
Proof.
  unfold property_order. rewrite sort_by_index_perm.
  apply filter_app_complement.
Qed.

Lemma elem_of_own_keys st k :
  k ∈ own_keys st ↔ is_Some (receivingFiles st !! k).
Proof.
  unfold own_keys. rewrite elem_of_app, list_elem_of_difference.
  rewrite !list_elem_of_filter, list_elem_of_fmap.
  split.
  - intros [[Hk _]|[([k' e] & -> & Hin) _]]; [done|].
    apply elem_of_map_to_list in Hin. cbn. by eexists.
  - intros [e He].
    destruct (decide (k ∈ remove_dups (receivingKeys st))) as [Hin|Hout].
    + left. split; [by eexists|done].
    + right. split.
      * exists (k, e). split; [done|]. by apply elem_of_map_to_list.
      * intros [_ Hin]. done.
Qed.


Lemma elem_of_for_in st k : k ∈ for_in st ↔ is_Some (receivingFiles st !! k).
Proof. unfold for_in. rewrite property_order_perm. apply elem_of_own_keys. Qed.

Lemma for_in_empty st : receivingFiles st = ∅ → for_in st = [].
Proof.
  intros Hempty. destruct (for_in st) as [|k ks] eqn:Hks; [done|].
  assert (k ∈ for_in st) as Hk by (rewrite Hks; left).
  apply elem_of_for_in in Hk as [e He]. by rewrite Hempty in He.
Qed.






Lemma keys_recorded_same st st' :
  receivingFiles st' = receivingFiles st →
  receivingKeys st' = receivingKeys st →
  keys_recorded st → keys_recorded st'.
Proof. unfold keys_recorded. by intros -> ->. Qed.

Lemma keys_recorded_assign fileId file st :
  keys_recorded st → keys_recorded (receivingFiles_assign fileId file st).
Proof.
  intros [Hnd Hin]. unfold keys_recorded, receivingFiles_assign. cbn.
  destruct (receivingFiles st !! fileId) as [e|] eqn:Hf.
  - split; [done|]. intros k. rewrite Hin.
    destruct (decide (k = fileId)) as [->|Hne].
    + rewrite lookup_insert_eq, Hf. split; by eexists.
    + by rewrite lookup_insert_ne.
  - assert (fileId ∉ receivingKeys st) as Hout.
    { rewrite Hin, Hf. by intros [? ?]. }
    split.
    + apply NoDup_app. split_and!; [done| |apply NoDup_singleton].
      intros k Hk ->%list_elem_of_singleton. done.
    + intros k. rewrite elem_of_app, list_elem_of_singleton, Hin.
      destruct (decide (k = fileId)) as [->|Hne].
      * rewrite lookup_insert_eq. split; [by eexists|by right].
      * rewrite lookup_insert_ne by done. tauto.
Qed.

Lemma keys_recorded_delete fileId st :
  keys_recorded st → keys_recorded (receivingFiles_delete fileId st).
Proof.
  intros [Hnd Hin]. unfold keys_recorded, receivingFiles_delete. cbn.
  split; [by apply NoDup_filter|].
  intros k. rewrite list_elem_of_filter, Hin.
  destruct (decide (k = fileId)) as [->|Hne].
  - rewrite lookup_delete_eq. split; [tauto|by intros [? ?]].
  - rewrite lookup_delete_ne by done. tauto.
Qed.

Lemma keys_recorded_clear st : keys_recorded (receivingFiles_clear st).
Proof.
  unfold keys_recorded. cbn. split; [constructor|].
  intros k. rewrite lookup_empty, elem_of_nil. split; [done|by intros [? ?]].
Qed.

(** ** The timeout sweep *)

Lemma quiet_progress fileId es : quiet fileId es → progress_of fileId es = [].
Proof.
  unfold quiet, progress_of. induction 1 as [|e es He _ IH]; [done|].
  csimpl. rewrite IH. destruct e; try done.
  simpl in He. apply bool_decide_eq_false in He. by rewrite decide_False.
Qed.

Lemma quiet_delivered fileId es : quiet fileId es → delivered fileId es = [].
Proof.
  unfold quiet, delivered. induction 1 as [|e es He _ IH]; [done|].
  csimpl. rewrite IH. destruct e as [| | |f [url|] name| | | | |]; try done.
  simpl in He. apply bool_decide_eq_false in He. by rewrite decide_False.
Qed.

Lemma sweep_notice_quiet held fileId es :
  held !! fileId = None → Forall (sweep_notice held) es → quiet fileId es.
Proof.
  intros Hnone Hes. eapply Forall_impl; [exact Hes|].
  intros [[] []| | | |k| | | |]; simpl; try done.
  intros [x Hx]. apply bool_decide_eq_false. congruence.
Qed.

Lemma sweep_notice_progress held fileId es :
  Forall (sweep_notice held) es → progress_of fileId es = [].
Proof.
  unfold progress_of. induction 1 as [|e es He _ IH]; [done|].
  csimpl. rewrite IH. by destruct e.
Qed.

Lemma after_sweep_idemp cfg now o :
  after_sweep cfg now (after_sweep cfg now o) = after_sweep cfg now o.
Proof.
  destruct o as [file|]; [|done]. simpl.
  destruct (timed_out cfg now file) eqn:Hto; [done|]. simpl. by rewrite Hto.
Qed.

Lemma sweep_body_spec cfg now st k :
  let st' := checkTransferTimeout_body cfg now st k in
  (∀ f, receivingFiles st' !! f
        = if decide (f = k) then after_sweep cfg now (receivingFiles st !! f)
          else receivingFiles st !! f)
  ∧ (∃ new, ui st' = ui st ++ new ∧ Forall (sweep_notice (receivingFiles st)) new)
  ∧ completedFiles st' = completedFiles st
  ∧ connection st' = connection st
  ∧ sent st' = sent st
  ∧ lastHeartbeat st' = lastHeartbeat st.
Proof.
  unfold checkTransferTimeout_body.
  destruct (receivingFiles st !! k) as [file|] eqn:Hk.
  - destruct (timed_out cfg now file) eqn:Hto; cbn.
    + split_and!; try done.
      * intros f. destruct (decide (f = k)) as [->|Hne].
        -- rewrite lookup_delete_eq, Hk. simpl. by rewrite Hto.
        -- by rewrite lookup_delete_ne.
      * eexists. rewrite <- app_assoc. split; [done|].
        repeat constructor. simpl. by rewrite Hk.
    + split_and!; try done.
      * intros f. destruct (decide (f = k)) as [->|Hne]; [|done].
        rewrite Hk. simpl. by rewrite Hto.
      * exists []. by rewrite app_nil_r.
  - cbn. split_and!; try done.
    + intros f. destruct (decide (f = k)) as [->|Hne]; [|done]. by rewrite Hk.
    + exists []. by rewrite app_nil_r.
Qed.

Lemma sweep_loop_spec cfg now ks : ∀ st,
  let st' := foldl (checkTransferTimeout_body cfg now) st ks in
  (∀ f, receivingFiles st' !! f
        = if decide (f ∈ ks) then after_sweep cfg now (receivingFiles st !! f)
          else receivingFiles st !! f)
  ∧ (∃ new, ui st' = ui st ++ new ∧ Forall (sweep_notice (receivingFiles st)) new)
  ∧ completedFiles st' = completedFiles st
  ∧ connection st' = connection st
  ∧ sent st' = sent st
  ∧ lastHeartbeat st' = lastHeartbeat st.
Proof.
  induction ks as [|k ks IH]; intros st; cbn [foldl].
  - split_and!; try done.
    exists []. by rewrite app_nil_r.
  - destruct (sweep_body_spec cfg now st k)
      as (Hrf1 & (new1 & Hui1 & Hn1) & Hcf1 & Hc1 & Hs1 & Hl1).
    destruct (IH (checkTransferTimeout_body cfg now st k))
      as (Hrf & (new & Hui & Hn) & Hcf & Hc & Hs & Hl).
    split_and!; try congruence.
    + intros f. rewrite Hrf, Hrf1.
      destruct (decide (f = k)) as [->|Hne].
      * rewrite (decide_True (P := k ∈ k :: ks)) by left.
        destruct (decide (k ∈ ks)); [apply after_sweep_idemp|done].
      * destruct (decide (f ∈ ks)) as [Hin|Hout].
        -- rewrite decide_True by (by right). done.
        -- rewrite decide_False; [done|]. rewrite elem_of_cons. tauto.
    + exists (new1 ++ new). rewrite Hui, Hui1, app_assoc. split; [done|].
      apply Forall_app. split; [done|].
      eapply Forall_impl; [exact Hn|].
      intros e. destruct e as [[] []| | | |k'| | | |]; simpl; try done.
      rewrite Hrf1. destruct (decide (k' = k)) as [->|]; [|done].
      destruct (receivingFiles st !! k) as [file|]; simpl.
      * intros _. by eexists.
      * by intros [? ?].
Qed.

Lemma checkTransferTimeout_spec cfg now st :
  let st' := checkTransferTimeout cfg now st in
  (∀ f, receivingFiles st' !! f = after_sweep cfg now (receivingFiles st !! f))
  ∧ (∃ new, ui st' = ui st ++ new ∧ Forall (sweep_notice (receivingFiles st)) new)
  ∧ completedFiles st' = completedFiles st
  ∧ connection st' = connection st
  ∧ sent st' = sent st
  ∧ lastHeartbeat st' = lastHeartbeat st.
Proof.
  unfold checkTransferTimeout.
  destruct (sweep_loop_spec cfg now (for_in st) st) as (Hrf & Hrest).
  split; [|exact Hrest].
  intros f. rewrite Hrf. case_decide as Hin; [done|].
  destruct (receivingFiles st !! f) as [file|] eqn:Hf; [|done].
  exfalso. apply Hin. apply elem_of_for_in. rewrite Hf. by eexists.
Qed.

(** ** A transfer that is not tracked *)

Lemma ui_same (es : list UiEvent) fileId :
  ∃ new, es = es ++ new ∧ quiet fileId new.
Proof. exists []. rewrite app_nil_r. split; [done|constructor]. Qed.

(** The event changed nothing that concerns the transfer. *)
Ltac untouched := split_and!; [done|done|apply ui_same].

(** An event other than a new [file-meta] for the identifier leaves an
    untracked transfer untracked, records nothing for it and tells the page
    nothing about it. *)
Lemma step_absent cfg fileId st ev :
  receivingFiles st !! fileId = None →
  not_meta fileId ev →
  let st' := step cfg st ev in
  receivingFiles st' !! fileId = None
  ∧ completedFiles st' !! fileId = completedFiles st !! fileId
  ∧ ∃ new, ui st' = ui st ++ new ∧ quiet fileId new.
Proof.
  intros Hnone Hev st'. subst st'.
  destruct ev as [now data|now|now|now| |]; cbn [step].
  - destruct data as [ts|content ts|m|g i d|g|ty]; cbn [handleData].
    + untouched.
    + split_and!; [done|done|]. eexists. cbn. rewrite <- app_assoc.
      split; [done|]. by repeat constructor.
    + simpl in Hev. cbn. split_and!; [by rewrite lookup_insert_ne|done|].
      eexists. split; [done|]. repeat constructor. cbn.
      by apply bool_decide_eq_false.
    + destruct (receivingFiles st !! g) as [e|] eqn:Hg.
      * assert (g ≠ fileId) as Hne by congruence.
        rewrite (receiveFileChunk_present _ _ _ _ _ e) by exact Hg. cbn.
        split_and!; [by rewrite lookup_insert_ne|done|].
        eexists. split; [done|]. repeat constructor. cbn.
        by apply bool_decide_eq_false.
      * rewrite receiveFileChunk_absent by exact Hg.
        untouched.
    + destruct (receivingFiles st !! g) as [e|] eqn:Hg.
      * assert (g ≠ fileId) as Hne by congruence.
        rewrite (receiveFileComplete_present _ _ e) by exact Hg. cbn.
        split_and!;
          [by rewrite lookup_delete_ne|by rewrite lookup_insert_ne|].
        eexists. rewrite <- app_assoc. split; [done|]. repeat constructor.
        cbn. by apply bool_decide_eq_false.
      * rewrite receiveFileComplete_absent by exact Hg.
        untouched.
    + untouched.
  - unfold heartbeatPing.
    destruct (heartbeatTimer st), (connection st) as [[[]]|];
      untouched.
  - unfold heartbeatCheck.
    destruct (heartbeatCheckTimer st); [|untouched].
    destruct (now - lastHeartbeat st >? HEARTBEAT_TIMEOUT cfg)%Z;
      [|untouched].
    destruct (connection st) as [[[]]|];
      try untouched.
    cbn. split_and!; [apply lookup_empty|done|].
    eexists. rewrite <- !app_assoc. split; [done|]. by repeat constructor.
  - destruct (transferCheckTimer st); [|untouched].
    destruct (checkTransferTimeout_spec cfg now st)
      as (Hrf & (new & Hui & Hn) & Hcf & _).
    split_and!.
    + rewrite Hrf, Hnone. done.
    + rewrite Hcf. done.
    + exists new. split; [done|]. eapply sweep_notice_quiet; done.
  - cbn. split_and!; [apply lookup_empty|done|].
    eexists. rewrite <- !app_assoc. split; [done|]. by repeat constructor.
  - destruct (connection st); untouched.
Qed.

Lemma run_absent cfg fileId evs : ∀ st,
  receivingFiles st !! fileId = None →
  Forall (not_meta fileId) evs →
  let st' := run cfg st evs in
  receivingFiles st' !! fileId = None
  ∧ completedFiles st' !! fileId = completedFiles st !! fileId
  ∧ ∃ new, ui st' = ui st ++ new ∧ quiet fileId new.
Proof.
  induction evs as [|ev evs IH]; intros st Hnone Hevs; cbn.
  - untouched.
  - apply Forall_cons in Hevs as [Hev Hevs].
    destruct (step_absent cfg fileId st ev Hnone Hev)
      as (Hrf1 & Hcf1 & new1 & Hui1 & Hq1).
    destruct (IH (step cfg st ev) Hrf1 Hevs) as (Hrf & Hcf & new & Hui & Hq).
    unfold run in *. split_and!; [done|congruence|].
    exists (new1 ++ new). rewrite Hui, Hui1, app_assoc. split; [done|].
    apply Forall_app. done.
Qed.

(** A late [file-chunk] or [file-complete] for an untracked transfer: the
    handler writes nothing, and the dispatcher has only refreshed the
    liveness timestamp. *)
Lemma late_message_ignored now fileId st :
  receivingFiles st !! fileId = None →
  (∀ i d, receiveFileChunk now fileId i d st = st)
  ∧ receiveFileComplete fileId st = st
  ∧ (∀ i d, handleData now (FileChunk fileId i d) st = set_lastHeartbeat now st)
  ∧ handleData now (FileComplete fileId) st = set_lastHeartbeat now st.
Proof.
  intros Hnone. split_and!.
  - intros i d. by apply receiveFileChunk_absent.
  - by apply receiveFileComplete_absent.
  - intros i d. cbn [handleData]. by apply receiveFileChunk_absent.
  - cbn [handleData]. by apply receiveFileComplete_absent.
Qed.

(** How the call ends: for an untracked identifier the guard [!fileData]
    returns, unless the identifier is an inherited name, for which the
    handler throws. *)
Lemma late_message_outcome now fileId st :
  receivingFiles st !! fileId = None →
  (∀ i d, handleData_outcome now (FileChunk fileId i d) st
          = ends (inherited fileId) (set_lastHeartbeat now st))
  ∧ handleData_outcome now (FileComplete fileId) st
    = ends (inherited fileId) (set_lastHeartbeat now st).
Proof.
  intros Hnone.
  destruct (late_message_ignored now fileId st Hnone) as (_ & _ & Hc & Hf).
  split; [intros i d|]; rewrite handleData_outcome_ends; cbn [misfires];
    rewrite ?Hc, ?Hf, bool_decide_eq_true_2; done.
Qed.

(** ** Transfer timeout *)

(** C5, at a failing input. A transfer announced under the identifier
    'constructor' is tracked like any other and is swept once it has been
    idle for more than the timeout. After that the identifier names no
    property of [receivingFiles] of its own, and the lookup finds the
    inherited one: a late [file-chunk] or [file-complete] for it is not
    ignored, its handler throws. For the identifier 'X' the same messages
    are ignored, as the guard [!fileData] means them to be. *)
Theorem late_message_after_timeout_throws :
  let swept := step CONFIG one_of_two_constructor (SweepTick 40000) in
  let swept_X := step CONFIG one_of_two (SweepTick 40000) in
  (Inbound.lastUpdate <$> receivingFiles one_of_two_constructor !! "constructor")
  = Some 2001%Z
  ∧ receivingFiles swept !! "constructor" = None
  ∧ handleData_outcome 41000 (FileChunk "constructor" 1 [Byte.x03; Byte.x04])
      swept
    = throws (set_lastHeartbeat 41000 swept)
  ∧ handleData_outcome 41000 (FileComplete "constructor") swept
    = throws (set_lastHeartbeat 41000 swept)
  ∧ receivingFiles swept_X !! "X" = None
  ∧ handleData_outcome 41000 (FileChunk "X" 1 [Byte.x03; Byte.x04]) swept_X
    = returns (set_lastHeartbeat 41000 swept_X)
  ∧ handleData_outcome 41000 (FileComplete "X") swept_X
    = returns (set_lastHeartbeat 41000 swept_X).
Proof.
  intros swept swept_X.
  assert (receivingFiles swept !! "constructor" = None) as Hgone
    by (vm_compute; reflexivity).
  assert (receivingFiles swept_X !! "X" = None) as Hgone_X
    by (vm_compute; reflexivity).
  destruct (late_message_outcome 41000 "constructor" swept Hgone) as [Hc Hf].
  destruct (late_message_outcome 41000 "X" swept_X Hgone_X) as [Hc_X Hf_X].
  split_and!; [vm_compute; reflexivity|done|apply Hc|apply Hf|done|apply Hc_X
              |apply Hf_X].
Qed.



(** ** Completion forgets the transfer *)

Lemma delivered_app fileId es es' :
  delivered fileId (es ++ es') = delivered fileId es ++ delivered fileId es'.
Proof. apply omap_app. Qed.




(** ** Liveness *)

Lemma handleData_lastHeartbeat now data st :
  lastHeartbeat (handleData now data st) = now.
Proof.
  destruct data as [ts|content ts|m|g i d|g|ty]; cbn [handleData]; try done.
  - unfold receiveFileChunk, receiveFileChunk_outcome, receivingFiles_get.
    cbn. destruct (receivingFiles st !! g); [done|]. by destruct (inherited g).
  - unfold receiveFileComplete, receiveFileComplete_outcome, receivingFiles_get.
    cbn. destruct (receivingFiles st !! g); [done|]. by destruct (inherited g).
Qed.

Lemma heartbeatCheck_cases cfg now st c :
  connection st = Some c →
  heartbeatCheck cfg now st
  = if (now - lastHeartbeat st >? HEARTBEAT_TIMEOUT cfg)%Z && negb (open c)
    then resetConnection (showToast ConnectionLost error st)
    else st.
Proof.
  intros Hc. unfold heartbeatCheck. rewrite Hc.
  by destruct (_ >? _)%Z, (open c).
Qed.

Lemma heartbeatCheck_after_reset cfg st later :
  heartbeatCheck cfg later (resetConnection st) = resetConnection st
  ∧ step cfg (resetConnection st) (CheckTick later) = resetConnection st.
Proof.
  cbn [step]. unfold heartbeatCheck.
  cbn [connection resetConnection stopHeartbeat set_timers tell
       updateConnectionStatus receivingFiles_clear set_receivingKeys
       set_receivingFiles set_connection].
  split.
  - by destruct (_ >? _)%Z.
  - destruct (heartbeatCheckTimer _); [by destruct (_ >? _)%Z|done].
Qed.

(** C6, as stated, fails. The teardown is not guarded against a second
    one. On a page whose channel has dropped its [open] flag, the liveness
    check that runs 19 s after the last message tears the session down and
    tells the page; the 'close' event of the connection, arriving after
    that, runs its handler all the same: a second error notice, and the
    status and the page reset once more. *)
Lemma close_after_teardown_notifies_again :
  connection silent = Some {| open := false |}
  ∧ connection torn_down = None
  ∧ drop (length (ui silent)) (ui torn_down)
    = [Toast ConnectionLost error; ConnectionStatus disconnected; PageReset]
  ∧ drop (length (ui torn_down)) (ui (step CONFIG torn_down Closed))
    = [Toast PeerLeft error; ConnectionStatus disconnected; PageReset]
  ∧ error_toasts
      (drop (length (ui silent))
         (ui (run CONFIG silent [CheckTick 20000; Closed])))
    = [ConnectionLost; PeerLeft].
Proof. vm_compute. done. Qed.

(** C6, amended. For a page with a connection, the liveness check tears
    the session down exactly when more than the heartbeat timeout (15000 ms
    in [CONFIG]) has passed since the last message and the connection does
    not report itself open. While the connection reports open the check
    changes nothing, however long the silence. A teardown by the check
    tells the page once (one error notice, the status and the page reset),
    empties the transfers and clears the three timers, and a check that
    runs afterwards, whether or not its timer is still counted as set,
    changes nothing. The handler of the 'close' event is not disarmed by
    it: a 'close' that arrives afterwards tells the page again (its own
    error notice, the status and the page reset). Every message, of any
    type, sets the liveness timestamp to its arrival time. *)
Theorem liveness_check_teardown cfg now st c :
  connection st = Some c →
  let st' := heartbeatCheck cfg now st in
  (connection st' = None
   ↔ (now - lastHeartbeat st > HEARTBEAT_TIMEOUT cfg)%Z ∧ open c = false)
  ∧ (open c = true → st' = st)
  ∧ ((now - lastHeartbeat st ≤ HEARTBEAT_TIMEOUT cfg)%Z → st' = st)
  ∧ ((now - lastHeartbeat st > HEARTBEAT_TIMEOUT cfg)%Z → open c = false →
     ui st'
     = ui st ++ [Toast ConnectionLost error; ConnectionStatus disconnected;
                 PageReset]
     ∧ receivingFiles st' = ∅
     ∧ (heartbeatTimer st', heartbeatCheckTimer st', transferCheckTimer st')
       = (false, false, false)
     ∧ (∀ later,
          heartbeatCheck cfg later st' = st'
          ∧ step cfg st' (CheckTick later) = st')
     ∧ ui (step cfg st' Closed)
       = ui st' ++ [Toast PeerLeft error; ConnectionStatus disconnected;
                    PageReset])
  ∧ (∀ t data s, lastHeartbeat (handleData t data s) = t)
  ∧ HEARTBEAT_TIMEOUT CONFIG = 15000%Z.
Proof.
  intros Hc st'.
  pose proof (heartbeatCheck_cases cfg now st c Hc) as Heq.
  pose proof (heartbeatCheck_after_reset cfg
                (showToast ConnectionLost error st)) as Hidem.
  fold st' in Heq. clearbody st'.
  destruct (Z.gtb_spec (now - lastHeartbeat st) (HEARTBEAT_TIMEOUT cfg))
    as [Hgt|Hle];
    destruct c as [[]]; cbn [open negb andb] in Heq; subst st'.
  - split_and!; [|done|done|done| |done].
    + rewrite Hc. split; [done|]. by intros [_ ?].
    + intros t data s. apply handleData_lastHeartbeat.
  - split_and!; [|done| | | |done].
    + split; [intros _; split; [lia|done]|done].
    + intros ?. lia.
    + intros _ _. split_and!; [| |  |exact Hidem|].
      * cbn. rewrite <- !app_assoc. done.
      * done.
      * cbn. by destruct (heartbeatTimer st), (heartbeatCheckTimer st),
                          (transferCheckTimer st).
      * cbn. rewrite <- !app_assoc. done.
    + intros t data s. apply handleData_lastHeartbeat.
  - split_and!; [|done|done| | |done].
    + rewrite Hc. split; [done|]. intros [? _]. lia.
    + intros ?. lia.
    + intros t data s. apply handleData_lastHeartbeat.
  - split_and!; [|done|done| | |done].
    + rewrite Hc. split; [done|]. intros [? _]. lia.
    + intros ?. lia.
    + intros t data s. apply handleData_lastHeartbeat.
Qed.

Lemma liveness_check_teardown_example :
  connection (heartbeatCheck CONFIG 20000 (step CONFIG online ChannelDown))
  = None.
Proof.
  destruct (liveness_check_teardown CONFIG 20000 (step CONFIG online ChannelDown)
              {| open := false |}) as (H & _).
  - reflexivity.
  - apply H. split; [vm_compute; reflexivity|reflexivity].
Defined.

(** ** Commands without a channel, and empty text *)

(** C8. Invoked while there is no connection, or while the connection
    does not report itself open, the send-file command is rejected with the
    error notice that asks to connect first: no send is started, so no
    message ([file-meta] in particular) goes to the channel and no sending
    item is created, and nothing else of the state changes. *)
Theorem handleFiles_without_channel files st :
  (connection st = None ∨ ∃ c, connection st = Some c ∧ open c = false) →
  let r := handleFiles files st in
  r.2 = []
  ∧ sent r.1 = sent st
  ∧ ui r.1 = ui st ++ [Toast PleaseConnect error]
  ∧ session r.1 = session st.
Proof.
  intros Hno r. subst r. unfold handleFiles, channel_open.
  destruct Hno as [->|(c & -> & ->)]; cbn; done.
Qed.

Lemma handleFiles_without_channel_example :
  sent (handleFiles [("f1", five_bytes)] initial).1 = [].
Proof.
  destruct (handleFiles_without_channel [("f1", five_bytes)] initial)
    as (_ & H & _).
  - left. reflexivity.
  - exact H.
Defined.

Lemma trimStart_whitespace s :
  trimStart s = [] ↔ Forall (fun c => is_whitespace c = true) s.
Proof.
  induction s as [|c s IH]; cbn [trimStart]; [done|].
  destruct (is_whitespace c) eqn:Hc.
  - rewrite IH. split; [by constructor|by inversion 1].
  - split; [done|]. inversion 1. congruence.
Qed.

Lemma trimStart_head s c t : trimStart s = c :: t → is_whitespace c = false.
Proof.
  induction s as [|c' s IH]; cbn [trimStart]; [done|].
  destruct (is_whitespace c') eqn:Hc; [done|]. congruence.
Qed.

Lemma trim_whitespace s :
  trim s = [] ↔ Forall (fun c => is_whitespace c = true) s.
Proof.
  unfold trim, trimEnd. split.
  - intros H. apply (f_equal (@rev N)) in H. rewrite rev_involutive in H.
    cbn in H. apply trimStart_whitespace in H.
    apply trimStart_whitespace.
    destruct (trimStart s) as [|c t] eqn:Hs; [done|].
    apply trimStart_head in Hs.
    rewrite Forall_forall in H. specialize (H c).
    assert (c ∈ rev (c :: t)) as Hin.
    { apply list_elem_of_In, in_rev. rewrite rev_involutive. by left. }
    apply H in Hin. congruence.
  - intros H. apply trimStart_whitespace in H. by rewrite H.
Qed.

Lemma trim_clean s first last_ :
  head s = Some first → is_whitespace first = false →
  last s = Some last_ → is_whitespace last_ = false →
  trim s = s.
Proof.
  intros Hh Hf Hl Hlw. unfold trim, trimEnd.
  assert (trimStart s = s) as ->.
  { destruct s as [|c s]; [done|]. cbn in *. by simplify_eq; rewrite Hf. }
  apply last_Some in Hl as [s' ->].
  rewrite rev_app_distr. cbn. rewrite Hlw. cbn.
  by rewrite rev_involutive.
Qed.

(** C9. The send-text command on content that is empty or made of
    whitespace only is rejected with the error notice that asks for text:
    no message is sent and the input is left as it is. On any other
    content, with an open channel, exactly one [text] message is sent,
    carrying the content without its leading and trailing whitespace (the
    content itself when it has none) and the time of sending. *)
Theorem sendText_checks_content now st :
  let st' := sendText now st in
  (Forall (fun c => is_whitespace c = true) (textInput st) →
   sent st' = sent st
   ∧ ui st' = ui st ++ [Toast EnterText error]
   ∧ textInput st' = textInput st)
  ∧ (¬ Forall (fun c => is_whitespace c = true) (textInput st) →
     channel_open st = true →
     sent st' = sent st ++ [Text (trim (textInput st)) now]
     ∧ trim (textInput st) ≠ []
     ∧ ui st' = ui st ++ [Toast TextSent success]
     ∧ textInput st' = [])
  ∧ (∀ first last_,
       head (textInput st) = Some first → is_whitespace first = false →
       last (textInput st) = Some last_ → is_whitespace last_ = false →
       trim (textInput st) = textInput st).
Proof.
  intros st'. subst st'. unfold sendText. split_and!.
  - intros Hws. apply trim_whitespace in Hws. rewrite Hws. done.
  - intros Hws Hopen.
    assert (trim (textInput st) ≠ []) as Hne
      by (by rewrite trim_whitespace).
    destruct (trim (textInput st)) as [|c t] eqn:Ht; [done|].
    cbn [is_empty]. rewrite Hopen. done.
  - apply trim_clean.
Qed.

(** The input "  " (two spaces) is rejected; the input " hi " is sent as
    "hi". *)
Example sendText_blank :
  let st := set_textInput [32; 32]%N online in
  sent (sendText 3000 st) = [] ∧ ui (sendText 3000 st) = ui st ++ [Toast EnterText error].
Proof. vm_compute. done. Qed.

Example sendText_padded :
  sent (sendText 3000 (set_textInput [32; 104; 105; 32]%N online))
  = [Text [104; 105]%N 3000].
Proof. vm_compute. reflexivity. Qed.

(** ** Chunks with a duplicate or stray index *)

(** C3, as stated, fails. A second arrival of chunk 0 leaves the slots
    as they are but is counted again in [receivedSize]; a chunk with index
    5 for a transfer of 2 chunks grows the slot array to 6 slots. *)
Lemma duplicate_or_stray_chunk_changes_state :
  let dup := handleData 2002 (FileChunk "X" 0 [Byte.x01; Byte.x02]) one_of_two in
  let stray := handleData 2002 (FileChunk "X" 5 [Byte.x03]) one_of_two in
  (Inbound.chunks <$> receivingFiles one_of_two !! "X")
  = Some [Some [Byte.x01; Byte.x02]; None]
  ∧ (Inbound.receivedSize <$> receivingFiles one_of_two !! "X") = Some 2
  ∧ (Inbound.chunks <$> receivingFiles dup !! "X")
    = Some [Some [Byte.x01; Byte.x02]; None]
  ∧ (Inbound.receivedSize <$> receivingFiles dup !! "X") = Some 4
  ∧ (Inbound.receivedSize <$> receivingFiles dup !! "X")
    ≠ (Inbound.receivedSize <$> receivingFiles one_of_two !! "X")
  ∧ (Meta.totalChunks ∘ Inbound.meta <$> receivingFiles stray !! "X") = Some 2
  ∧ (length ∘ Inbound.chunks <$> receivingFiles stray !! "X") = Some 6
  ∧ (Inbound.receivedSize <$> receivingFiles stray !! "X") = Some 3.
Proof.
  intros dup stray. split_and!; try (vm_compute; reflexivity).
  intros H. vm_compute in H. discriminate H.
Qed.

(** C3, amended. A [file-chunk] for a tracked transfer is never
    ignored: whatever its index, its byte length is added to
    [receivedSize] and the resulting progress is exposed. An index inside
    the slot array (a duplicate included) overwrites that slot with the
    arriving data and the array keeps its length, so a second arrival of
    the same data leaves the slots as they are. An index at or past the
    length of the array and below 2^32 - 1 extends it to [index + 1] slots,
    the earlier slots kept and the new ones in between unset. A negative
    index, or one past the array that is 2^32 - 1 or more, is not an array
    index: it changes no slot and not the length. *)
Theorem chunk_is_always_counted now fileId i d st e :
  receivingFiles st !! fileId = Some e →
  let st' := handleData now (FileChunk fileId i d) st in
  ∃ e',
    receivingFiles st' !! fileId = Some e'
    ∧ Inbound.meta e' = Inbound.meta e
    ∧ Inbound.receivedSize e' = Inbound.receivedSize e + length d
    ∧ ui st'
      = ui st ++ [FileProgress fileId
                    (percent (Inbound.receivedSize e + length d)
                       (Meta.size (Inbound.meta e)))]
    ∧ ((0 ≤ i < Z.of_nat (length (Inbound.chunks e)))%Z →
       Inbound.chunks e' = <[Z.to_nat i := Some d]> (Inbound.chunks e)
       ∧ length (Inbound.chunks e') = length (Inbound.chunks e)
       ∧ (Inbound.chunks e !! Z.to_nat i = Some (Some d) →
          Inbound.chunks e' = Inbound.chunks e))
    ∧ ((Z.of_nat (length (Inbound.chunks e)) ≤ i < 4294967295)%Z →
       length (Inbound.chunks e') = S (Z.to_nat i)
       ∧ Inbound.chunks e' !! Z.to_nat i = Some (Some d)
       ∧ (∀ j, j < length (Inbound.chunks e) →
            Inbound.chunks e' !! j = Inbound.chunks e !! j)
       ∧ (∀ j, length (Inbound.chunks e) ≤ j < Z.to_nat i →
            Inbound.chunks e' !! j = Some None))
    ∧ ((i < 0 ∨ Z.of_nat (length (Inbound.chunks e)) ≤ i ∧ 4294967295 ≤ i)%Z →
       Inbound.chunks e' = Inbound.chunks e).
Proof.
  intros He st'. subst st'. cbn [handleData].
  rewrite (receiveFileChunk_present _ _ _ _ _ e) by exact He.
  eexists. split; [cbn; apply lookup_insert_eq|].
  cbn [Inbound.meta Inbound.receivedSize Inbound.chunks].
  split_and!; try done.
  - intros [Hlo Hhi]. rewrite array_store_eq.
    destruct (Z.ltb_spec i 0); [lia|].
    destruct (Nat.ltb_spec (Z.to_nat i) (length (Inbound.chunks e))); [|lia].
    split_and!; [done|apply length_insert|].
    intros Hsame. by apply list_insert_id.
  - intros [Hge Hidx]. rewrite array_store_eq.
    destruct (Z.ltb_spec i 0); [lia|].
    destruct (Nat.ltb_spec (Z.to_nat i) (length (Inbound.chunks e))); [lia|].
    destruct (Z.ltb_spec i 4294967295); [|lia].
    set (a := Inbound.chunks e) in *. set (n := Z.to_nat i) in *.
    split_and!.
    + rewrite !length_app, length_replicate. cbn. lia.
    + rewrite lookup_app_r by lia.
      rewrite lookup_app_r by (rewrite length_replicate; lia).
      rewrite length_replicate. by replace (n - length a - (n - length a)) with 0 by lia.
    + intros j Hj. by rewrite lookup_app_l.
    + intros j Hj. rewrite lookup_app_r by lia.
      rewrite lookup_app_l by (rewrite length_replicate; lia).
      apply lookup_replicate_2. lia.
  - intros Hout. rewrite array_store_eq.
    destruct (Z.ltb_spec i 0); [done|].
    destruct (Nat.ltb_spec (Z.to_nat i) (length (Inbound.chunks e))); [lia|].
    by destruct (Z.ltb_spec i 4294967295); [lia|].
Qed.

Lemma chunk_is_always_counted_example :
  ∃ e',
    receivingFiles
      (handleData 2002 (FileChunk "X" 0 [Byte.x01; Byte.x02]) one_of_two) !! "X"
    = Some e'
    ∧ Inbound.receivedSize e' = 4.
Proof.
  destruct (chunk_is_always_counted 2002 "X" 0 [Byte.x01; Byte.x02] one_of_two
              one_of_two_entry) as (e' & H1 & _ & H2 & _).
  - vm_compute. reflexivity.
  - exists e'. split; [exact H1|exact H2].
Defined.

(** An index of 2^32 - 1 for the transfer of [one_of_two]: the chunk is
    counted, and the slots stay as they are. *)
Example chunk_past_every_index :
  let st' := handleData 2002 (FileChunk "X" 4294967295 [Byte.x03]) one_of_two in
  (Inbound.chunks <$> receivingFiles st' !! "X")
  = Some [Some [Byte.x01; Byte.x02]; None]
  ∧ (Inbound.receivedSize <$> receivingFiles st' !! "X") = Some 3.
Proof. vm_compute. done. Qed.

(** ** Progress values *)

Lemma percent_pos a s :
  0 < s → percent a s = PNum ((Z.of_nat a # Pos.of_nat s) * 100)%Q.
Proof. intros Hs. destruct s; [lia|done]. Qed.

Lemma percent_le a b s :
  0 < s → a ≤ b → progress_le (percent a s) (percent b s) = true.
Proof.
  intros Hs Hab. rewrite !percent_pos by done. cbn [progress_le].
  apply Qle_bool_iff. unfold Qle. cbn.
  apply Z.mul_le_mono_nonneg_r; lia.
Qed.

Lemma percent_lt a b s :
  0 < s → a < b → progress_lt (percent a s) (percent b s) = true.
Proof.
  intros Hs Hab. rewrite !percent_pos by done. cbn [progress_lt].
  apply negb_true_iff. apply not_true_is_false. intros Hle.
  apply Qle_bool_iff in Hle. unfold Qle in Hle. cbn in Hle.
  apply Z.mul_le_mono_pos_r in Hle; lia.
Qed.

Lemma percent_100 a s : 0 < s → is_100 (percent a s) = true ↔ a = s.
Proof.
  intros Hs. rewrite percent_pos by done. cbn [is_100].
  rewrite Qeq_bool_iff. unfold Qeq. cbn.
  rewrite Pos.mul_1_r, Z.mul_1_r.
  lia.
Qed.

Lemma progress_lt_le p q : progress_lt p q = true → progress_le p q = true.
Proof.
  destruct p as [x| |], q as [y| |]; cbn; try done.
  intros H. apply negb_true_iff in H. apply Qle_bool_iff.
  apply Qlt_le_weak, Qnot_le_lt. intros Hle.
  apply Qle_bool_iff in Hle. congruence.
Qed.

Lemma increasing_non_decreasing ps :
  increasing ps = true → non_decreasing ps = true.
Proof.
  induction ps as [|p [|q ps] IH]; cbn; try done.
  intros [Hpq Hrest]%andb_true_iff.
  apply andb_true_iff. split; [by apply progress_lt_le|by apply IH].
Qed.

Lemma increasing_percent (g : nat → nat) s n : ∀ a,
  0 < s → (∀ k, a ≤ k → S k < a + n → g k < g (S k)) →
  increasing (map (fun k => percent (g k) s) (seq a n)) = true.
Proof.
  induction n as [|n IH]; intros a Hs Hg; [done|].
  destruct n as [|n]; [done|].
  cbn [seq map increasing] in *. apply andb_true_iff. split.
  - apply percent_lt; [done|]. apply Hg; lia.
  - apply (IH (S a)); [done|]. intros k ? ?. apply Hg; lia.
Qed.

Lemma non_decreasing_percent (g : nat → nat) s n : ∀ a,
  0 < s → (∀ k, a ≤ k → S k < a + n → g k ≤ g (S k)) →
  non_decreasing (map (fun k => percent (g k) s) (seq a n)) = true.
Proof.
  induction n as [|n IH]; intros a Hs Hg; [done|].
  destruct n as [|n]; [done|].
  cbn [seq map non_decreasing] in *. apply andb_true_iff. split.
  - apply percent_le; [done|]. apply Hg; lia.
  - apply (IH (S a)); [done|]. intros k ? ?. apply Hg; lia.
Qed.

Lemma progress_of_app fileId es es' :
  progress_of fileId (es ++ es')
  = progress_of fileId es ++ progress_of fileId es'.
Proof. apply omap_app. Qed.

(** ** A tracked transfer, one event at a time *)

Lemma moved_nowhere fileId e (st st' : State) :
  ui st' = ui st →
  receivingFiles st' !! fileId = Some e →
  ∃ new, ui st' = ui st ++ new ∧ moved fileId e st' new.
Proof.
  intros Hui He. exists []. rewrite app_nil_r. split; [done|].
  left. split; [by right|done].
Qed.

Lemma step_present cfg fileId st e ev :
  receivingFiles st !! fileId = Some e →
  not_meta fileId ev →
  let st' := step cfg st ev in
  ∃ new, ui st' = ui st ++ new ∧ moved fileId e st' new.
Proof.
  intros He Hev st'. subst st'. unfold moved.
  destruct ev as [now data|now|now|now| |]; cbn [step].
  - destruct data as [ts|content ts|m|g i d|g|ty]; cbn [handleData].
    + by apply moved_nowhere.
    + eexists. cbn. rewrite <- app_assoc. split; [done|].
      left. split; [by right|done].
    + simpl in Hev. eexists. cbn. split; [done|]. left.
      split; [right; by rewrite lookup_insert_ne|done].
    + destruct (receivingFiles st !! g) as [eg|] eqn:Hg.
      * rewrite (receiveFileChunk_present _ _ _ _ _ eg) by exact Hg. cbn.
        eexists. split; [done|].
        destruct (decide (g = fileId)) as [->|Hne].
        -- assert (eg = e) as -> by congruence. right.
           eexists. rewrite lookup_insert_eq. split; [done|]. cbn.
           split_and!; [done|lia|].
           unfold progress_of. cbn. by rewrite decide_True.
        -- left. split; [right; by rewrite lookup_insert_ne|].
           unfold progress_of. cbn. by rewrite decide_False.
      * rewrite receiveFileChunk_absent by exact Hg. by apply moved_nowhere.
    + destruct (receivingFiles st !! g) as [eg|] eqn:Hg.
      * rewrite (receiveFileComplete_present _ _ eg) by exact Hg. cbn.
        eexists. rewrite <- app_assoc. split; [done|]. left. split; [|done].
        destruct (decide (g = fileId)) as [->|Hne].
        -- left. apply lookup_delete_eq.
        -- right. by rewrite lookup_delete_ne.
      * rewrite receiveFileComplete_absent by exact Hg. by apply moved_nowhere.
    + by apply moved_nowhere.
  - unfold heartbeatPing.
    destruct (heartbeatTimer st), (connection st) as [[[]]|];
      by apply moved_nowhere.
  - unfold heartbeatCheck.
    destruct (heartbeatCheckTimer st); [|by apply moved_nowhere].
    destruct (now - lastHeartbeat st >? HEARTBEAT_TIMEOUT cfg)%Z;
      [|by apply moved_nowhere].
    destruct (connection st) as [[[]]|]; try by apply moved_nowhere.
    cbn. eexists. rewrite <- !app_assoc. split; [done|].
    left. split; [left; apply lookup_empty|done].
  - destruct (transferCheckTimer st); [|by apply moved_nowhere].
    destruct (checkTransferTimeout_spec cfg now st)
      as (Hrf & (new & Hui & Hn) & _).
    exists new. split; [done|]. left. split.
    + rewrite Hrf, He. cbn. destruct (timed_out cfg now e); [by left|by right].
    + by eapply sweep_notice_progress.
  - cbn. eexists. rewrite <- !app_assoc. split; [done|].
    left. split; [left; apply lookup_empty|done].
  - destruct (connection st); by apply moved_nowhere.
Qed.

(** Whatever events follow, short of a new [file-meta] for the identifier,
    the progress values exposed for a tracked transfer of a positive
    declared size never go down, starting from the value for its current
    byte count. *)
Lemma run_present cfg fileId evs : ∀ st e,
  receivingFiles st !! fileId = Some e →
  0 < Meta.size (Inbound.meta e) →
  Forall (not_meta fileId) evs →
  ∃ new,
    ui (run cfg st evs) = ui st ++ new
    ∧ non_decreasing
        (percent (Inbound.receivedSize e) (Meta.size (Inbound.meta e))
         :: progress_of fileId new) = true.
Proof.
  induction evs as [|ev evs IH]; intros st e He Hsize Hevs.
  - exists []. rewrite app_nil_r. done.
  - apply Forall_cons in Hevs as [Hev Hevs].
    destruct (step_present cfg fileId st e ev He Hev) as (new1 & Hui1 & Hmv).
    cbn [run foldl]. fold (run cfg (step cfg st ev) evs).
    destruct Hmv as [[[Hgone|Hsame] Hp]|(e' & He' & Hmeta & Hle & Hp)].
    + destruct (run_absent cfg fileId evs _ Hgone Hevs)
        as (_ & _ & new & Hui & Hq).
      exists (new1 ++ new). rewrite Hui, Hui1, app_assoc. split; [done|].
      by rewrite progress_of_app, Hp, (quiet_progress _ _ Hq).
    + destruct (IH _ e Hsame Hsize Hevs) as (new & Hui & Hnd).
      exists (new1 ++ new). rewrite Hui, Hui1, app_assoc. split; [done|].
      by rewrite progress_of_app, Hp.
    + destruct (IH _ e' He' ltac:(by rewrite Hmeta) Hevs) as (new & Hui & Hnd).
      exists (new1 ++ new). rewrite Hui, Hui1, app_assoc. split; [done|].
      rewrite progress_of_app, Hp. rewrite Hmeta in Hnd.
      change (progress_le
                (percent (Inbound.receivedSize e) (Meta.size (Inbound.meta e)))
                (percent (Inbound.receivedSize e') (Meta.size (Inbound.meta e)))
              && non_decreasing
                   (percent (Inbound.receivedSize e')
                      (Meta.size (Inbound.meta e))
                    :: progress_of fileId new) = true).
      rewrite Hnd, andb_true_r. by apply percent_le.
Qed.

(** ** Progress over the life of a transfer *)

(** C4, as stated, fails on the receiving side. A second arrival of
    chunk 0 of a transfer of two chunks takes the exposed progress to
    exactly 100% while slot 1 is unset and no [file-complete] has been
    processed; a third arrival takes it past 100%. *)
Lemma progress_full_before_completion :
  let dup := handleData 2002 (FileChunk "X" 0 [Byte.x01; Byte.x02]) one_of_two in
  let again := handleData 2003 (FileChunk "X" 0 [Byte.x01; Byte.x02]) dup in
  map is_100 (progress_of "X" (ui dup)) = [false; true]
  ∧ (Inbound.chunks <$> receivingFiles dup !! "X")
    = Some [Some [Byte.x01; Byte.x02]; None]
  ∧ completedFiles dup !! "X" = None
  ∧ delivered "X" (ui dup) = []
  ∧ map (progress_lt (PNum 100)) (progress_of "X" (ui again))
    = [false; false; true].
Proof.
  intros dup again. split_and!; vm_compute; reflexivity.
Qed.

(** C4, amended. Sending: the progress values of one send are
    [k / totalChunks * 100] for [k = 1 .. totalChunks], strictly
    increasing, and the value is exactly 100% only for the last chunk,
    after which the send emits [file-complete] and reports completion.
    Receiving: for a tracked transfer of positive declared size, whatever
    events follow short of a new [file-meta] for its identifier, the
    progress values exposed never go down (every chunk event adds its byte
    length to [receivedSize]); and when the messages are those of one send
    delivered in order, the values are non-decreasing and exactly 100% only
    for the last chunk, which the completion follows. Nothing is claimed
    about 100% on the receiving side for other message sequences. *)
Theorem progress_is_monotone cfg fileId file st_s (clock : nat → Z) st_r
    inbound st e evs :
  1 ≤ CHUNK_SIZE cfg →
  receivingFiles st !! inbound = Some e →
  0 < Meta.size (Inbound.meta e) →
  Forall (not_meta inbound) evs →
  let totalChunks := ceil_div (File.size file) (CHUNK_SIZE cfg) in
  let received k := Nat.min (k * CHUNK_SIZE cfg) (File.size file) in
  let blob :=
    {| blob_bytes := File.content file; blob_type := File.type file |} in
  (sendFile_ui cfg fileId file st_s
   = FileItem fileId (File.name file) (File.size file) sending
     :: map (fun k => FileProgress fileId (percent k totalChunks))
          (seq 1 totalChunks)
     ++ [FileCompleted fileId None None;
         Toast (FileSent (File.name file)) success]
   ∧ increasing (map (fun k => percent k totalChunks) (seq 1 totalChunks))
     = true
   ∧ non_decreasing (map (fun k => percent k totalChunks) (seq 1 totalChunks))
     = true
   ∧ ∀ k, 1 ≤ k ≤ totalChunks →
       is_100 (percent k totalChunks) = true ↔ k = totalChunks)
  ∧ (∃ new,
       ui (run cfg st evs) = ui st ++ new
       ∧ non_decreasing
           (percent (Inbound.receivedSize e) (Meta.size (Inbound.meta e))
            :: progress_of inbound new) = true)
  ∧ (ui (run cfg st_r
           (arrivals clock (sendFile_messages cfg fileId file st_s)))
     = ui st_r
       ++ FileItem fileId (File.name file) (File.size file) receiving
          :: map (fun k =>
                    FileProgress fileId (percent (received k) (File.size file)))
               (seq 1 totalChunks)
          ++ [FileCompleted fileId (Some blob) (Some (File.name file));
              Toast (FileReceived (File.name file)) success]
     ∧ non_decreasing
         (map (fun k => percent (received k) (File.size file))
            (seq 1 totalChunks)) = true
     ∧ ∀ k, 1 ≤ k ≤ totalChunks →
         is_100 (percent (received k) (File.size file)) = true
         ↔ k = totalChunks).
Proof.
  intros Hcs He Hsize Hevs totalChunks received blob.
  assert (0 < totalChunks → 0 < File.size file) as Hpos.
  { intros Hn. destruct (File.size file) eqn:Hs; [|lia].
    subst totalChunks. rewrite ceil_div_zero in Hn by done. lia. }
  assert (increasing (map (fun k => percent k totalChunks) (seq 1 totalChunks))
          = true) as Hinc.
  { destruct totalChunks as [|n] eqn:Hn; [done|].
    apply (increasing_percent (fun k => k)); [lia|]. intros k ? ?. lia. }
  split_and!.
  - apply sendFile_ui_eq.
  - exact Hinc.
  - by apply increasing_non_decreasing.
  - intros k Hk. apply percent_100. lia.
  - by apply run_present.
  - by destruct (receive_whole_send cfg fileId file clock st_r st_s Hcs)
      as (_ & _ & ?).
  - destruct totalChunks as [|n] eqn:Hn; [done|].
    apply (non_decreasing_percent received); [apply Hpos; lia|].
    intros k ? ?. subst received. cbn. nia.
  - intros k Hk. rewrite percent_100 by (apply Hpos; lia).
    subst received. cbn.
    pose proof (ceil_div_upper (File.size file) (CHUNK_SIZE cfg) Hcs) as Hup.
    pose proof (ceil_div_least (File.size file) (CHUNK_SIZE cfg) Hcs k) as Hlst.
    fold totalChunks in Hup, Hlst. split.
    + intros Hmin. assert (totalChunks ≤ k) by (apply Hlst; lia). lia.
    + intros ->. lia.
Qed.

Lemma progress_is_monotone_example :
  increasing (map (fun k => percent k 3) (seq 1 3)) = true.
Proof.
  destruct (progress_is_monotone small_chunks "f1" five_bytes online
              Z.of_nat online "X" one_of_two
              one_of_two_entry [])
    as ((_ & H & _) & _).
  - simpl. lia.
  - vm_compute. reflexivity.
  - simpl. lia.
  - constructor.
  - exact H.
Defined.


(** * Further properties of the page *)

(** ** Events in sequence *)

Lemma arrivals_cons clock m ms :
  arrivals clock (m :: ms) = Data (clock 0) m :: arrivals (clock ∘ S) ms.
Proof. reflexivity. Qed.

Lemma arrivals_app clock ms ms' :
  arrivals clock (ms ++ ms')
  = arrivals clock ms ++ arrivals (fun i => clock (length ms + i)) ms'.
Proof. unfold arrivals. by rewrite imap_app. Qed.

Lemma run_app cfg st evs evs' :
  run cfg st (evs ++ evs') = run cfg (run cfg st evs) evs'.
Proof. unfold run. apply foldl_app. Qed.

Lemma run_cons cfg st ev evs :
  run cfg st (ev :: evs) = run cfg (step cfg st ev) evs.
Proof. reflexivity. Qed.

(** ** Chunks in any order *)

Lemma array_store_inside a i d :
  i < length a → array_store a (Z.of_nat i) d = <[i := Some d]> a.
Proof.
  intros Hi. rewrite array_store_eq.
  destruct (Z.ltb_spec (Z.of_nat i) 0); [lia|]. rewrite Nat2Z.id.
  destruct (Nat.ltb_spec i (length a)); [done|lia].
Qed.

Lemma receive_chunks_any_order cfg fileId (data : nat → bytes) order :
  ∀ (clock : nat → Z) st e,
  receivingFiles st !! fileId = Some e →
  Forall (fun i => i < length (Inbound.chunks e)) order →
  let st' :=
    run cfg st
      (arrivals clock
         (map (fun i => FileChunk fileId (Z.of_nat i) (data i)) order)) in
  ∃ e',
    receivingFiles st' = <[fileId := e']> (receivingFiles st)
    ∧ Inbound.meta e' = Inbound.meta e
    ∧ length (Inbound.chunks e') = length (Inbound.chunks e)
    ∧ (∀ j, Inbound.chunks e' !! j
            = if decide (j ∈ order) then Some (Some (data j))
              else Inbound.chunks e !! j)
    ∧ completedFiles st' = completedFiles st.
Proof.
  induction order as [|i order IH]; intros clock st e He Hin st'; subst st'.
  - exists e. cbn. split_and!; try done.
    symmetry. by apply insert_id.
  - apply Forall_cons in Hin as [Hi Hin].
    cbn [map]. rewrite arrivals_cons, run_cons. cbn [step handleData].
    rewrite (receiveFileChunk_present _ _ _ _ _ e) by exact He.
    rewrite array_store_inside by exact Hi.
    set (e1 := {| Inbound.meta := Inbound.meta e;
                  Inbound.chunks := _;
                  Inbound.receivedSize := _;
                  Inbound.lastUpdate := _ |}).
    set (st1 := updateFileProgress _ _ _).
    assert (receivingFiles st1 = <[fileId := e1]> (receivingFiles st)) as Hrf1
      by done.
    assert (completedFiles st1 = completedFiles st) as Hcf1 by done.
    clearbody st1.
    destruct (IH (clock ∘ S) st1 e1) as (e' & Hrf & Hmeta & Hlen & Hslots & Hcf).
    { rewrite Hrf1. apply lookup_insert_eq. }
    { subst e1. cbn. by rewrite length_insert. }
    exists e'. split_and!.
    + rewrite Hrf, Hrf1. apply insert_insert_eq.
    + by rewrite Hmeta.
    + rewrite Hlen. subst e1. cbn. apply length_insert.
    + intros j. rewrite Hslots. subst e1. cbn.
      destruct (decide (j ∈ order)) as [Hj|Hj].
      * rewrite decide_True by (by right). done.
      * destruct (decide (j = i)) as [->|Hne].
        -- rewrite decide_True by left. by apply list_lookup_insert_eq.
        -- rewrite decide_False by (rewrite elem_of_cons; tauto).
           by apply list_lookup_insert_ne.
    + by rewrite Hcf.
Qed.

(** X1. Reordering tolerance. With a chunk size of at least 1, a
    receiver that gets the [file-meta] of a send, then its [file-chunk]
    messages in any order that names every index once, then its
    [file-complete], records the file with its content byte for byte, as
    it does for the order of the send. *)
Theorem chunks_in_any_order_roundtrip cfg fileId file (order : list nat)
    (clock : nat → Z) st :
  1 ≤ CHUNK_SIZE cfg →
  order ≡ₚ seq 0 (ceil_div (File.size file) (CHUNK_SIZE cfg)) →
  let msgs :=
    FileMeta (sendFile_meta cfg fileId file)
    :: chunks_in_order cfg fileId file order ++ [FileComplete fileId] in
  let st' := run cfg st (arrivals clock msgs) in
  completedFiles st' !! fileId
  = Some {| Completed.name := File.name file;
            Completed.size := File.size file;
            Completed.url :=
              {| blob_bytes := File.content file;
                 blob_type := File.type file |};
            Completed.downloaded := false |}
  ∧ receivingFiles st' !! fileId = None.
Proof.
  intros Hcs Hperm msgs st'. subst st' msgs.
  set (n := ceil_div (File.size file) (CHUNK_SIZE cfg)) in *.
  rewrite arrivals_cons, run_cons, arrivals_app, run_app.
  set (m := sendFile_meta cfg fileId file).
  set (e0 := {| Inbound.meta := m;
                Inbound.chunks := new_Array n;
                Inbound.receivedSize := 0;
                Inbound.lastUpdate := clock 0 |}).
  set (st1 := step cfg st (Data (clock 0) (FileMeta m))).
  assert (receivingFiles st1 = <[fileId := e0]> (receivingFiles st)) as Hrf1
    by done.
  assert (completedFiles st1 = completedFiles st) as Hcf1 by done.
  clearbody st1.
  destruct (receive_chunks_any_order cfg fileId (chunk cfg file) order
              (clock ∘ S) st1 e0) as (e' & Hrf & Hmeta & Hlen & Hslots & Hcf).
  { rewrite Hrf1. apply lookup_insert_eq. }
  { subst e0. cbn. unfold new_Array. rewrite length_replicate.
    rewrite Hperm. apply Forall_forall. intros i Hi.
    apply elem_of_seq in Hi. lia. }
  unfold chunks_in_order. set (st2 := run cfg st1 _) in *. clearbody st2.
  assert (Inbound.chunks e' = map Some (map (chunk cfg file) (seq 0 n)))
    as Hall.
  { apply list_eq. intros j. rewrite Hslots. subst e0. cbn.
    change (map Some (map (chunk cfg file) (seq 0 n)))
      with (Some <$> (chunk cfg file <$> seq 0 n)).
    rewrite !list_lookup_fmap.
    destruct (decide (j ∈ order)) as [Hj|Hj].
    - rewrite Hperm in Hj. apply elem_of_seq in Hj.
      rewrite lookup_seq_lt by lia. done.
    - rewrite Hperm, elem_of_seq in Hj.
      rewrite lookup_seq_ge by lia. cbn.
      apply lookup_replicate_None. lia. }
  cbn [arrivals imap run foldl step handleData].
  rewrite (receiveFileComplete_present _ _ e')
    by (cbn; rewrite Hrf; apply lookup_insert_eq).
  cbn. rewrite Hcf, Hcf1, Hrf, Hmeta, Hall. split.
  - rewrite lookup_insert_eq. do 2 f_equal.
    unfold new_Blob. f_equal.
    rewrite concat_map_Some. apply chunks_concat_all. done.
  - apply lookup_delete_eq.
Qed.

Lemma chunks_in_any_order_roundtrip_example :
  (Completed.url <$>
     completedFiles
       (run small_chunks online
          (arrivals Z.of_nat
             (FileMeta (sendFile_meta small_chunks "f1" five_bytes)
              :: chunks_in_order small_chunks "f1" five_bytes [2; 0; 1]
              ++ [FileComplete "f1"]))) !! "f1")
  = Some {| blob_bytes := [Byte.x01; Byte.x02; Byte.x03; Byte.x04; Byte.x05];
            blob_type := "application/octet-stream" |}.
Proof.
  destruct (chunks_in_any_order_roundtrip small_chunks "f1" five_bytes
              [2; 0; 1] Z.of_nat online) as (H & _).
  - simpl. lia.
  - vm_compute. apply (Permutation_cons_append [0; 1] 2).
  - rewrite H. reflexivity.
Defined.

(** ** Transfers side by side *)

Lemma handleData_other now m fileId st :
  message_id m ≠ Some fileId →
  let st' := handleData now m st in
  receivingFiles st' !! fileId = receivingFiles st !! fileId
  ∧ completedFiles st' !! fileId = completedFiles st !! fileId
  ∧ ∃ new, ui st' = ui st ++ new ∧ quiet fileId new.
Proof.
  intros Hm st'. subst st'.
  destruct m as [ts|content ts|data|g i d|g|ty]; cbn [handleData].
  - untouched.
  - split_and!; [done|done|]. eexists. cbn. rewrite <- app_assoc.
    split; [done|]. by repeat constructor.
  - assert (Meta.fileId data ≠ fileId) as Hne by (cbn in Hm; congruence).
    cbn. split_and!; [by rewrite lookup_insert_ne|done|].
    eexists. split; [done|]. repeat constructor. cbn.
    by apply bool_decide_eq_false.
  - assert (g ≠ fileId) as Hne by (cbn in Hm; congruence).
    destruct (receivingFiles st !! g) as [e|] eqn:Hg.
    + rewrite (receiveFileChunk_present _ _ _ _ _ e) by exact Hg. cbn.
      split_and!; [by rewrite lookup_insert_ne|done|].
      eexists. split; [done|]. repeat constructor. cbn.
      by apply bool_decide_eq_false.
    + rewrite receiveFileChunk_absent by exact Hg. untouched.
  - assert (g ≠ fileId) as Hne by (cbn in Hm; congruence).
    destruct (receivingFiles st !! g) as [e|] eqn:Hg.
    + rewrite (receiveFileComplete_present _ _ e) by exact Hg. cbn.
      split_and!; [by rewrite lookup_delete_ne|by rewrite lookup_insert_ne|].
      eexists. rewrite <- app_assoc. split; [done|]. repeat constructor.
      cbn. by apply bool_decide_eq_false.
    + rewrite receiveFileComplete_absent by exact Hg. untouched.
  - untouched.
Qed.

(** X2. Transfers do not interfere. Whatever messages arrive that are
    about other transfers or about none ([file-meta], [file-chunk] and
    [file-complete] with another identifier, texts, heartbeats, unknown
    kinds), the entry of a transfer in [receivingFiles], its record in
    [completedFiles] and what the page has been told about it stay as they
    are. *)
Theorem other_transfers_do_not_interfere cfg fileId evs : ∀ st,
  Forall (about_other fileId) evs →
  let st' := run cfg st evs in
  receivingFiles st' !! fileId = receivingFiles st !! fileId
  ∧ completedFiles st' !! fileId = completedFiles st !! fileId
  ∧ ∃ new, ui st' = ui st ++ new ∧ quiet fileId new.
Proof.
  induction evs as [|ev evs IH]; intros st Hevs; cbn.
  - split_and!; [done|done|apply ui_same].
  - apply Forall_cons in Hevs as [Hev Hevs].
    destruct ev as [now m| | | | |]; try done.
    destruct (handleData_other now m fileId st Hev)
      as (Hrf1 & Hcf1 & new1 & Hui1 & Hq1).
    destruct (IH (handleData now m st) Hevs) as (Hrf & Hcf & new & Hui & Hq).
    unfold run in *. cbn [step]. split_and!; [congruence|congruence|].
    exists (new1 ++ new). rewrite Hui, Hui1, app_assoc. split; [done|].
    by apply Forall_app.
Qed.

Lemma other_transfers_do_not_interfere_example :
  receivingFiles
    (run CONFIG one_of_two
       [Data 2002 (FileMeta {| Meta.fileId := "Y"; Meta.name := "y.bin";
                               Meta.size := 1; Meta.fileType := "";
                               Meta.totalChunks := 1 |});
        Data 2003 (FileChunk "Y" 0 [Byte.x09]);
        Data 2004 (FileComplete "Y")]) !! "X"
  = receivingFiles one_of_two !! "X".
Proof.
  destruct (other_transfers_do_not_interfere CONFIG "X"
              [Data 2002 (FileMeta {| Meta.fileId := "Y"; Meta.name := "y.bin";
                                      Meta.size := 1; Meta.fileType := "";
                                      Meta.totalChunks := 1 |});
               Data 2003 (FileChunk "Y" 0 [Byte.x09]);
               Data 2004 (FileComplete "Y")] one_of_two) as (H & _).
  - repeat constructor; simpl; discriminate.
  - exact H.
Defined.

(** ** Receiving is passive *)

Lemma handleData_passive now m st :
  local_side (handleData now m st) = local_side st.
Proof.
  destruct m as [ts|content ts|data|g i d|g|ty]; cbn [handleData]; try done.
  - unfold receiveFileChunk, receiveFileChunk_outcome, receivingFiles_get.
    cbn. destruct (receivingFiles st !! g); [done|]. by destruct (inherited g).
  - unfold receiveFileComplete, receiveFileComplete_outcome, receivingFiles_get.
    cbn. destruct (receivingFiles st !! g); [done|]. by destruct (inherited g).
Qed.

(** X3. Receiving is passive. Whatever messages arrive, handling them
    sends nothing back on the channel (no acknowledgement, no reply to a
    heartbeat), and changes neither the connection, nor the timers, nor the
    text the user is typing; a heartbeat or a message of an unknown kind
    changes nothing at all but the liveness timestamp. *)
Theorem receiving_is_passive cfg evs : ∀ st,
  Forall is_data evs →
  local_side (run cfg st evs) = local_side st
  ∧ (∀ now ts, handleData now (Heartbeat ts) st = set_lastHeartbeat now st)
  ∧ (∀ now ty, handleData now (Other ty) st = set_lastHeartbeat now st).
Proof.
  induction evs as [|ev evs IH]; intros st Hevs.
  - done.
  - apply Forall_cons in Hevs as [Hev Hevs].
    destruct ev as [now m| | | | |]; try done.
    split_and!; [|done|done].
    rewrite run_cons. cbn [step].
    destruct (IH (handleData now m st) Hevs) as (-> & _).
    apply handleData_passive.
Qed.

Lemma receiving_is_passive_example :
  sent (run CONFIG one_of_two
          [Data 2002 (Heartbeat 1990);
           Data 2003 (FileChunk "X" 1 [Byte.x03; Byte.x04]);
           Data 2004 (FileComplete "X")])
  = sent one_of_two.
Proof.
  destruct (receiving_is_passive CONFIG
              [Data 2002 (Heartbeat 1990);
               Data 2003 (FileChunk "X" 1 [Byte.x03; Byte.x04]);
               Data 2004 (FileComplete "X")] one_of_two) as (H & _).
  - repeat constructor.
  - unfold local_side in H. congruence.
Defined.

(** ** The byte counter *)

Lemma array_store_longer a i d : length a ≤ length (array_store a i d).
Proof.
  rewrite array_store_eq. destruct (Z.ltb_spec i 0); [done|].
  destruct (Nat.ltb_spec (Z.to_nat i) (length a)).
  - by rewrite length_insert.
  - destruct (i <? 4294967295)%Z; [|done]. rewrite length_app. lia.
Qed.

Lemma chunk_bytes_cons fileId ev evs :
  chunk_bytes fileId (ev :: evs)
  = chunk_bytes fileId [ev] + chunk_bytes fileId evs.
Proof.
  destruct ev as [now [ts|content ts|data|g i d|g|ty]| | | | |]; cbn; lia.
Qed.

Lemma step_tracked cfg fileId st e ev e' :
  receivingFiles st !! fileId = Some e →
  not_meta fileId ev →
  receivingFiles (step cfg st ev) !! fileId = Some e' →
  Inbound.meta e' = Inbound.meta e
  ∧ Inbound.receivedSize e'
    = Inbound.receivedSize e + chunk_bytes fileId [ev]
  ∧ length (Inbound.chunks e) ≤ length (Inbound.chunks e').
Proof.
  intros He Hev.
  destruct ev as [now data|now|now|now| |]; cbn [step].
  - destruct data as [ts|content ts|m|g i d|g|ty]; cbn [handleData].
    + cbn. rewrite He. intros [= <-]. cbn. split_and!; [done|lia|done].
    + cbn. rewrite He. intros [= <-]. cbn. split_and!; [done|lia|done].
    + simpl in Hev. cbn. rewrite lookup_insert_ne by done. rewrite He.
      intros [= <-]. cbn. split_and!; [done|lia|done].
    + destruct (receivingFiles st !! g) as [eg|] eqn:Hg.
      * rewrite (receiveFileChunk_present _ _ _ _ _ eg) by exact Hg. cbn.
        destruct (decide (g = fileId)) as [->|Hne].
        -- assert (eg = e) as -> by congruence.
           rewrite lookup_insert_eq. intros [= <-]. cbn.
           split_and!; [done|lia|apply array_store_longer].
        -- rewrite lookup_insert_ne by done. rewrite He. intros [= <-].
           split_and!; [done|lia|done].
      * rewrite receiveFileChunk_absent by exact Hg. cbn. rewrite He.
        intros [= <-].
        assert (g ≠ fileId) by congruence.
        rewrite decide_False by done. split_and!; [done|lia|done].
    + destruct (receivingFiles st !! g) as [eg|] eqn:Hg.
      * rewrite (receiveFileComplete_present _ _ eg) by exact Hg. cbn.
        destruct (decide (g = fileId)) as [->|Hne].
        -- by rewrite lookup_delete_eq.
        -- rewrite lookup_delete_ne by done. rewrite He. intros [= <-].
           split_and!; [done|lia|done].
      * rewrite receiveFileComplete_absent by exact Hg. cbn. rewrite He.
        intros [= <-]. split_and!; [done|lia|done].
    + cbn. rewrite He. intros [= <-]. cbn. split_and!; [done|lia|done].
  - unfold heartbeatPing.
    destruct (heartbeatTimer st), (connection st) as [[[]]|]; cbn;
      rewrite He; intros [= <-]; (split_and!; [done|lia|done]).
  - unfold heartbeatCheck.
    destruct (heartbeatCheckTimer st),
      (now - lastHeartbeat st >? HEARTBEAT_TIMEOUT cfg)%Z,
      (connection st) as [[[]]|]; cbn;
      rewrite ?lookup_empty, ?He; try done;
      intros [= <-]; (split_and!; [done|lia|done]).
  - destruct (transferCheckTimer st).
    + destruct (checkTransferTimeout_spec cfg now st) as (Hrf & _).
      rewrite Hrf, He. cbn. destruct (timed_out cfg now e); [done|].
      intros [= <-]. cbn. split_and!; [done|lia|done].
    + rewrite He. intros [= <-]. cbn. split_and!; [done|lia|done].
  - cbn. by rewrite lookup_empty.
  - destruct (connection st); cbn; rewrite He; intros [= <-];
      (split_and!; [done|cbn; lia|done]).
Qed.

(** X4. The byte counter counts every delivery. As long as a transfer
    stays tracked and no new [file-meta] replaces it, whatever else
    happens (messages of any kind, timers, the channel dropping), its
    entry keeps the metadata it was announced with, its [receivedSize] has
    grown by exactly the bytes of all [file-chunk] messages that arrived
    for it, duplicates and stray indices included, and its slot array has
    not shrunk. *)
Theorem receivedSize_counts_every_chunk cfg fileId evs : ∀ st e e',
  receivingFiles st !! fileId = Some e →
  Forall (not_meta fileId) evs →
  receivingFiles (run cfg st evs) !! fileId = Some e' →
  Inbound.meta e' = Inbound.meta e
  ∧ Inbound.receivedSize e'
    = Inbound.receivedSize e + chunk_bytes fileId evs
  ∧ length (Inbound.chunks e) ≤ length (Inbound.chunks e').
Proof.
  induction evs as [|ev evs IH]; intros st e e' He Hevs Hend.
  - cbn in Hend. assert (e' = e) as -> by congruence.
    cbn. split_and!; [done|lia|done].
  - apply Forall_cons in Hevs as [Hev Hevs]. rewrite run_cons in Hend.
    destruct (receivingFiles (step cfg st ev) !! fileId) as [e1|] eqn:H1.
    + destruct (step_tracked cfg fileId st e ev e1 He Hev H1)
        as (Hm1 & Hs1 & Hl1).
      destruct (IH _ e1 e' H1 Hevs Hend) as (Hm & Hs & Hl).
      rewrite chunk_bytes_cons. split_and!; [congruence|lia|lia].
    + destruct (run_absent cfg fileId evs _ H1 Hevs) as (Hgone & _).
      congruence.
Qed.

Lemma receivedSize_counts_every_chunk_example :
  (Inbound.receivedSize <$>
     receivingFiles
       (run CONFIG one_of_two
          [Data 2002 (FileChunk "X" 0 [Byte.x01; Byte.x02]);
           SweepTick 3000;
           Data 2003 (FileChunk "X" 7 [Byte.x05])]) !! "X")
  = Some 5.
Proof.
  destruct (receivingFiles _ !! "X") as [e'|] eqn:He'.
  - destruct (receivedSize_counts_every_chunk CONFIG "X"
                [Data 2002 (FileChunk "X" 0 [Byte.x01; Byte.x02]);
                 SweepTick 3000;
                 Data 2003 (FileChunk "X" 7 [Byte.x05])]
                one_of_two one_of_two_entry e') as (_ & H & _).
    + vm_compute. reflexivity.
    + repeat constructor.
    + exact He'.
    + cbn. f_equal. exact H.
  - vm_compute in He'. discriminate He'.
Defined.

(** ** After a teardown *)

Lemma callbacks_after_reset cfg now st :
  heartbeatPing now (resetConnection st) = resetConnection st
  ∧ heartbeatCheck cfg now (resetConnection st) = resetConnection st
  ∧ checkTransferTimeout cfg now (resetConnection st) = resetConnection st.
Proof.
  split_and!.
  - reflexivity.
  - apply heartbeatCheck_after_reset.
  - unfold checkTransferTimeout. by rewrite for_in_empty.
Qed.

(** X5. A teardown leaves nothing running. After [resetConnection] the
    three timers are cleared, and even a callback of theirs that still
    fires finds nothing to do: no heartbeat is sent, no second teardown
    happens, no transfer is swept. So whatever timer events follow, the
    state stays exactly as the teardown left it, and the same holds after
    the connection's 'close' event, whose handler ends in the teardown. *)
Theorem nothing_runs_after_teardown cfg evs st :
  Forall is_tick evs →
  (heartbeatTimer (resetConnection st), heartbeatCheckTimer (resetConnection st),
   transferCheckTimer (resetConnection st)) = (false, false, false)
  ∧ (∀ now,
       heartbeatPing now (resetConnection st) = resetConnection st
       ∧ heartbeatCheck cfg now (resetConnection st) = resetConnection st
       ∧ checkTransferTimeout cfg now (resetConnection st) = resetConnection st)
  ∧ run cfg (resetConnection st) evs = resetConnection st
  ∧ run cfg (connection_on_close st) evs = connection_on_close st.
Proof.
  intros Hevs.
  assert (∀ s, run cfg (resetConnection s) evs = resetConnection s) as Hrun.
  { intros s. induction Hevs as [|ev evs Hev _ IH]; [done|].
    rewrite run_cons.
    assert (step cfg (resetConnection s) ev = resetConnection s) as ->; [|done].
    destruct ev as [|now|now|now| |]; try done; cbn [step].
    - destruct (heartbeatTimer _); [|done].
      by destruct (callbacks_after_reset cfg now s) as (-> & _).
    - destruct (heartbeatCheckTimer _); [|done].
      by destruct (callbacks_after_reset cfg now s) as (_ & -> & _).
    - destruct (transferCheckTimer _); [|done].
      by destruct (callbacks_after_reset cfg now s) as (_ & _ & ->). }
  split_and!.
  - cbn. by destruct (heartbeatTimer st), (heartbeatCheckTimer st),
                      (transferCheckTimer st).
  - intros now. apply callbacks_after_reset.
  - apply Hrun.
  - unfold connection_on_close. apply Hrun.
Qed.

Lemma nothing_runs_after_teardown_example :
  run CONFIG (resetConnection one_of_two)
    [PingTick 5000; CheckTick 60000; SweepTick 60000]
  = resetConnection one_of_two.
Proof.
  destruct (nothing_runs_after_teardown CONFIG
              [PingTick 5000; CheckTick 60000; SweepTick 60000] one_of_two)
    as (_ & _ & H & _).
  - repeat constructor.
  - exact H.
Defined.

(** X6. A teardown drops the transfers in flight without a word about
    them. [resetConnection] empties [receivingFiles] and tells the page
    only the new status and the page reset: no completion, timeout or
    progress for any transfer. The files already completed stay recorded.
    Afterwards, whatever events follow short of a new [file-meta] for an
    identifier, that transfer stays untracked and no artifact is handed
    over for it: its late chunks and its [file-complete] are lost. *)
Theorem teardown_drops_transfers cfg fileId evs st :
  Forall (not_meta fileId) evs →
  let torn := resetConnection st in
  let st' := run cfg torn evs in
  receivingFiles torn = ∅
  ∧ completedFiles torn = completedFiles st
  ∧ ui torn = ui st ++ [ConnectionStatus disconnected; PageReset]
  ∧ connection torn = None
  ∧ receivingFiles st' !! fileId = None
  ∧ completedFiles st' !! fileId = completedFiles st !! fileId
  ∧ delivered fileId (ui st') = delivered fileId (ui st)
  ∧ progress_of fileId (ui st') = progress_of fileId (ui st).
Proof.
  intros Hevs torn st'.
  destruct (run_absent cfg fileId evs torn (lookup_empty _) Hevs)
    as (Hrf & Hcf & new & Hui & Hq).
  assert (ui torn = ui st ++ [ConnectionStatus disconnected; PageReset])
    as Hut by (cbn; by rewrite <- app_assoc).
  split_and!; try done.
  - subst st'. rewrite Hui, delivered_app, (quiet_delivered _ _ Hq), app_nil_r.
    rewrite Hut, delivered_app. apply app_nil_r.
  - subst st'. rewrite Hui, progress_of_app, (quiet_progress _ _ Hq), app_nil_r.
    rewrite Hut, progress_of_app. apply app_nil_r.
Qed.

Lemma teardown_drops_transfers_example :
  completedFiles
    (run CONFIG (resetConnection one_of_two)
       [Data 3000 (FileChunk "X" 1 [Byte.x03; Byte.x04]);
        Data 3001 (FileComplete "X")]) !! "X"
  = None.
Proof.
  destruct (teardown_drops_transfers CONFIG "X"
              [Data 3000 (FileChunk "X" 1 [Byte.x03; Byte.x04]);
               Data 3001 (FileComplete "X")] one_of_two)
    as (_ & _ & _ & _ & _ & H & _).
  - repeat constructor.
  - rewrite H. vm_compute. reflexivity.
Defined.

(** ** Grace periods *)

(** X7. Any traffic keeps the session alive. For the whole heartbeat
    timeout after a message of any kind arrived, and after the heartbeat
    was started, the liveness check changes nothing, even when the
    connection no longer reports itself open. *)
Theorem traffic_keeps_session_alive cfg t now m st :
  (now - t ≤ HEARTBEAT_TIMEOUT cfg)%Z →
  heartbeatCheck cfg now (handleData t m st) = handleData t m st
  ∧ step cfg (handleData t m st) (CheckTick now) = handleData t m st
  ∧ heartbeatCheck cfg now (startHeartbeat t st) = startHeartbeat t st.
Proof.
  intros Hle.
  assert (∀ s, lastHeartbeat s = t → heartbeatCheck cfg now s = s) as Hidle.
  { intros s Hs. unfold heartbeatCheck. rewrite Hs.
    destruct (Z.gtb_spec (now - t) (HEARTBEAT_TIMEOUT cfg)); [lia|done]. }
  split_and!.
  - apply Hidle, handleData_lastHeartbeat.
  - cbn [step]. destruct (heartbeatCheckTimer _); [|done].
    apply Hidle, handleData_lastHeartbeat.
  - by apply Hidle.
Qed.

Lemma traffic_keeps_session_alive_example :
  heartbeatCheck CONFIG 16000
    (handleData 2000 (Heartbeat 1999) (step CONFIG online ChannelDown))
  = handleData 2000 (Heartbeat 1999) (step CONFIG online ChannelDown).
Proof.
  destruct (traffic_keeps_session_alive CONFIG 2000 16000 (Heartbeat 1999)
              (step CONFIG online ChannelDown)) as (H & _).
  - simpl. lia.
  - exact H.
Defined.



(** ** What a sweep says and does *)




Lemma keys_recorded_sweep cfg now ks : ∀ st,
  keys_recorded st →
  keys_recorded (foldl (checkTransferTimeout_body cfg now) st ks).
Proof.
  induction ks as [|k ks IH]; intros st Hst; [done|]. cbn [foldl].
  apply IH. unfold checkTransferTimeout_body.
  destruct (receivingFiles st !! k) as [file|]; [|done].
  destruct (timed_out cfg now file); [|done].
  by apply keys_recorded_delete.
Qed.

(** Every handler keeps the record of the order of creation exact. *)
Lemma keys_recorded_step cfg st ev :
  keys_recorded st → keys_recorded (step cfg st ev).
Proof.
  intros Hst. destruct ev as [now data|now|now|now| |]; cbn [step].
  - destruct data as [ts|content ts|m|g i d|g|ty]; cbn [handleData];
      try done.
    + by apply (keys_recorded_assign _ _ (set_lastHeartbeat now st)).
    + destruct (receivingFiles st !! g) as [e|] eqn:Hg.
      * rewrite (receiveFileChunk_present _ _ _ _ _ e) by exact Hg.
        destruct Hst as [Hnd Hin]. split; [done|]. intros k. cbn.
        rewrite Hin. destruct (decide (k = g)) as [->|Hne].
        -- rewrite lookup_insert_eq, Hg. split; by eexists.
        -- by rewrite lookup_insert_ne.
      * by rewrite receiveFileChunk_absent.
    + destruct (receivingFiles st !! g) as [e|] eqn:Hg.
      * rewrite (receiveFileComplete_present _ _ e) by exact Hg.
        by apply keys_recorded_delete.
      * by rewrite receiveFileComplete_absent.
  - unfold heartbeatPing.
    by destruct (heartbeatTimer st), (connection st) as [[[]]|].
  - unfold heartbeatCheck.
    destruct (heartbeatCheckTimer st); [|done].
    destruct (_ >? _)%Z; [|done].
    destruct (connection st) as [[[]]|]; try done.
    exact (keys_recorded_clear st).
  - destruct (transferCheckTimer st); [|done].
    by apply keys_recorded_sweep.
  - exact (keys_recorded_clear st).
  - by destruct (connection st).
Qed.

Lemma keys_recorded_run cfg evs : ∀ st,
  keys_recorded st → keys_recorded (run cfg st evs).
Proof.
  induction evs as [|ev evs IH]; intros st Hst; [done|].
  apply IH. by apply keys_recorded_step.
Qed.






(** The transfer of [one_of_two], swept 38 s after its last chunk. *)
Example sweep_removes_and_reports_example :
  let st' := checkTransferTimeout CONFIG 40000 one_of_two in
  receivingFiles st' !! "X" = None
  ∧ drop (length (ui one_of_two)) (ui st')
    = [FileTimeout "X"; Toast (FileTimedOut "x.bin") error].
Proof. vm_compute. done. Qed.

(** Three transfers announced as 'b', 'a' and '7', in this order, and
    swept together: the one whose identifier spells an array index is
    reported first, the other two in the order of their announcement. *)
Example sweep_order_example :
  keys_recorded three_announced
  ∧ receivingKeys three_announced = ["b"; "a"; "7"]
  ∧ for_in three_announced = ["7"; "b"; "a"]
  ∧ drop (length (ui three_announced))
      (ui (checkTransferTimeout CONFIG 40000 three_announced))
    = [FileTimeout "7"; Toast (FileTimedOut "7.bin") error;
       FileTimeout "b"; Toast (FileTimedOut "b.bin") error;
       FileTimeout "a"; Toast (FileTimedOut "a.bin") error].
Proof.
  split.
  - apply (keys_recorded_run CONFIG _ online).
    split; [constructor|]. intros k. vm_compute. split; [|by intros [? ?]].
    by intros ?%elem_of_nil.
  - vm_compute. done.
Qed.

(** ** The announcement matches the chunks *)

Lemma sendFile_session cfg fileId file st :
  session (sendFile cfg fileId file st) = session st.
Proof.
  unfold sendFile. simpl.
  match goal with
  | |- context [foldl ?f (?s, ?k) (seq ?a ?n)] =>
      destruct (sendFile_loop cfg fileId file n n a s k) as (_ & _ & _ & Hf)
  end.
  simpl in Hf. unfold session in *. simpl. done.
Qed.

Lemma total_chunk_lengths (f : nat → bytes) l :
  foldr Z.add 0%Z (map (fun i => Z.of_nat (length (f i))) l)
  = Z.of_nat (length (concat (map f l))).
Proof.
  induction l as [|i l IH]; [done|]. cbn. rewrite IH, length_app. lia.
Qed.

Lemma progress_of_values fileId (g : nat → Progress) l :
  progress_of fileId (map (fun j => FileProgress fileId (g j)) l) = map g l.
Proof.
  induction l as [|j l IH]; [done|].
  unfold progress_of in *. cbn. rewrite decide_True by done.
  cbn. by rewrite IH.
Qed.

(** X10. The announcement matches what follows. With a chunk size of at
    least 1, one send emits [totalChunks + 2] messages; the number of its
    [file-chunk] messages is the [totalChunks] it announced and their bytes
    add up to the [size] it announced; every chunk carries at least 1 and
    at most [chunkSize] bytes; one progress value is exposed per chunk; and
    the send touches nothing of the receiving side, the connection or the
    timers. *)
Theorem sendFile_announcement_matches cfg fileId file st :
  1 ≤ CHUNK_SIZE cfg →
  let totalChunks := ceil_div (File.size file) (CHUNK_SIZE cfg) in
  let msgs := sendFile_messages cfg fileId file st in
  length msgs = totalChunks + 2
  ∧ head msgs
    = Some (FileMeta {| Meta.fileId := fileId;
                        Meta.name := File.name file;
                        Meta.size := File.size file;
                        Meta.fileType := File.type file;
                        Meta.totalChunks := totalChunks |})
  ∧ length (chunk_shapes msgs) = totalChunks
  ∧ foldr Z.add 0%Z (chunk_shapes msgs).*2 = Z.of_nat (File.size file)
  ∧ Forall (fun s => (1 ≤ s.2 ≤ Z.of_nat (CHUNK_SIZE cfg))%Z) (chunk_shapes msgs)
  ∧ length (progress_of fileId (sendFile_ui cfg fileId file st)) = totalChunks
  ∧ session (sendFile cfg fileId file st) = session st.
Proof.
  intros Hcs totalChunks msgs. subst msgs.
  rewrite sendFile_messages_eq, chunk_shapes_framed, chunk_shapes_chunks.
  fold totalChunks. split_and!.
  - cbn. rewrite length_app, length_map, length_seq. cbn. lia.
  - done.
  - by rewrite length_map, length_seq.
  - change ((map (fun i => (Z.of_nat i, Z.of_nat (length (chunk cfg file i))))
               (seq 0 totalChunks)).*2)
      with (snd <$> ((fun i => (Z.of_nat i, Z.of_nat (length (chunk cfg file i))))
                       <$> seq 0 totalChunks)).
    rewrite <- list_fmap_compose.
    change (foldr Z.add 0%Z
              (map (fun i => Z.of_nat (length (chunk cfg file i)))
                 (seq 0 totalChunks))
            = Z.of_nat (File.size file)).
    rewrite total_chunk_lengths. subst totalChunks.
    rewrite chunks_concat_all by done. done.
  - apply Forall_forall. intros s Hs.
    apply list_elem_of_In, in_map_iff in Hs as (i & <- & Hi).
    apply in_seq in Hi. cbn. rewrite chunk_length.
    assert (i * CHUNK_SIZE cfg < File.size file)
      by (apply ceil_div_below; [done|]; fold totalChunks; lia).
    lia.
  - rewrite sendFile_ui_eq. fold totalChunks.
    change (FileItem fileId (File.name file) (File.size file) sending :: ?l)
      with ([FileItem fileId (File.name file) (File.size file) sending] ++ l).
    rewrite !progress_of_app, progress_of_values. cbn.
    rewrite app_nil_r, length_map, length_seq. done.
  - apply sendFile_session.
Qed.

Lemma sendFile_announcement_matches_example :
  foldr Z.add 0%Z
    (chunk_shapes (sendFile_messages small_chunks "f1" five_bytes online)).*2
  = 5%Z.
Proof.
  destruct (sendFile_announcement_matches small_chunks "f1" five_bytes online)
    as (_ & _ & _ & H & _).
  - simpl. lia.
  - exact H.
Defined.

(** ** Text from one page to the other *)

Lemma sendText_accepted now st :
  ¬ Forall (fun c => is_whitespace c = true) (textInput st) →
  channel_open st = true →
  sendText now st
  = showToast TextSent success
      (set_textInput []
         (connection_send (Text (trim (textInput st)) now) st)).
Proof.
  intros Hws Hopen. unfold sendText.
  assert (trim (textInput st) ≠ []) as Hne by (by rewrite trim_whitespace).
  destruct (trim (textInput st)) as [|c t] eqn:Ht; [done|].
  cbn [is_empty]. by rewrite Hopen.
Qed.

(** X11. A text makes the round trip. When the send-text command
    accepts the input, the message it puts on the channel, handled by the
    page at the other end, shows there exactly the text without its
    surrounding whitespace with the time of sending, raises the notice of
    a new text, and changes nothing of that page's transfers, completed
    files or channel. *)
Theorem text_roundtrip cfg now (clock : nat → Z) st peer :
  ¬ Forall (fun c => is_whitespace c = true) (textInput st) →
  channel_open st = true →
  let msgs := drop (length (sent st)) (sent (sendText now st)) in
  let peer' := run cfg peer (arrivals clock msgs) in
  ui peer'
  = ui peer ++ [TextShown (trim (textInput st)) now; Toast NewText plain]
  ∧ receivingFiles peer' = receivingFiles peer
  ∧ completedFiles peer' = completedFiles peer
  ∧ local_side peer' = local_side peer.
Proof.
  intros Hws Hopen msgs peer'. subst peer' msgs.
  rewrite sendText_accepted by done. cbn [sent showToast tell set_textInput
                                            connection_send].
  rewrite drop_app_length. cbn. rewrite <- app_assoc. done.
Qed.

Lemma text_roundtrip_example :
  ui (run CONFIG online
        (arrivals Z.of_nat
           (drop (length (sent (set_textInput [32; 104; 105; 32]%N online)))
              (sent (sendText 3000 (set_textInput [32; 104; 105; 32]%N online))))))
  = ui online ++ [TextShown [104; 105]%N 3000; Toast NewText plain].
Proof.
  destruct (text_roundtrip CONFIG 3000 Z.of_nat
              (set_textInput [32; 104; 105; 32]%N online) online) as (H & _).
  - intros H. inversion H as [|? ? _ H']. inversion H' as [|? ? Hh _].
    vm_compute in Hh. discriminate Hh.
  - reflexivity.
  - exact H.
Defined.

(** X12. Text without a channel. With text to send but no connection,
    or a connection that does not report itself open, the send-text
    command raises the notice that asks to connect first, sends nothing and
    leaves the input as the user typed it. *)
Theorem sendText_without_channel now st :
  ¬ Forall (fun c => is_whitespace c = true) (textInput st) →
  (connection st = None ∨ ∃ c, connection st = Some c ∧ open c = false) →
  let st' := sendText now st in
  sent st' = sent st
  ∧ ui st' = ui st ++ [Toast PleaseConnect error]
  ∧ textInput st' = textInput st
  ∧ session st' = session st.
Proof.
  intros Hws Hno st'. subst st'. unfold sendText.
  assert (trim (textInput st) ≠ []) as Hne by (by rewrite trim_whitespace).
  destruct (trim (textInput st)) as [|c t] eqn:Ht; [done|].
  cbn [is_empty]. unfold channel_open.
  destruct Hno as [->|(c' & -> & ->)]; done.
Qed.

Lemma sendText_without_channel_example :
  sent (sendText 3000 (set_textInput [104; 105]%N initial)) = [].
Proof.
  destruct (sendText_without_channel 3000 (set_textInput [104; 105]%N initial))
    as (H & _).
  - intros H. inversion H as [|? ? Hh _]. vm_compute in Hh. discriminate Hh.
  - left. reflexivity.
  - exact H.
Defined.

(** ** Downloading a received file *)

Lemma downloadFile_known url fileName fileId st c :
  fileId ≠ "" →
  completedFiles st !! fileId = Some c →
  downloadFile url fileName fileId st
  = (set_completedFiles (<[fileId := mark_downloaded c]> (completedFiles st)) st,
     [LinkClicked url fileName; DownloadedShown fileId;
      DownloadStarted fileName]).
Proof.
  intros Hne Hc. unfold downloadFile.
  apply String.eqb_neq in Hne. rewrite Hne, Hc. done.
Qed.

Lemma downloadFile_unknown url fileName fileId st :
  fileId = "" ∨ completedFiles st !! fileId = None →
  downloadFile url fileName fileId st
  = (st, [LinkClicked url fileName; DownloadStarted fileName]).
Proof.
  intros Hno. unfold downloadFile.
  destruct (String.eqb_spec fileId "") as [->|Hne]; [done|].
  destruct Hno as [Hempty | Hnone]; [done|]. by rewrite Hnone.
Qed.

(** X13. Downloading marks the file and nothing else. When the
    identifier is not empty and names a completed file, [downloadFile]
    sets its [downloaded] flag and keeps its name, size and blob; the link
    is clicked, the status shown and the notice raised, in that order. For
    an empty identifier, or one that names no completed file, the state is
    left as it is and no entry is created, though the link is still clicked
    and the notice raised. In every case the other completed files and the
    transfers in progress are untouched, and downloading again changes
    nothing more. *)
Theorem downloadFile_marks_only_known url fileName fileId st :
  let r := downloadFile url fileName fileId st in
  (fileId ≠ "" → ∀ c, completedFiles st !! fileId = Some c →
     completedFiles r.1 !! fileId
     = Some {| Completed.name := Completed.name c;
               Completed.size := Completed.size c;
               Completed.url := Completed.url c;
               Completed.downloaded := true |}
     ∧ r.2 = [LinkClicked url fileName; DownloadedShown fileId;
              DownloadStarted fileName])
  ∧ (fileId = "" ∨ completedFiles st !! fileId = None →
     r.1 = st
     ∧ r.2 = [LinkClicked url fileName; DownloadStarted fileName])
  ∧ (∀ other, other ≠ fileId →
       completedFiles r.1 !! other = completedFiles st !! other)
  ∧ (∀ k, is_Some (completedFiles r.1 !! k) ↔ is_Some (completedFiles st !! k))
  ∧ receivingFiles r.1 = receivingFiles st
  ∧ (sent r.1, ui r.1, connection r.1) = (sent st, ui st, connection st)
  ∧ (downloadFile url fileName fileId r.1).1 = r.1.
Proof.
  intros r.
  destruct (decide (fileId = "")) as [Hempty|Hne].
  { subst r. rewrite !downloadFile_unknown by (by left). cbn.
    split_and!; try done. }
  destruct (completedFiles st !! fileId) as [c|] eqn:Hc.
  - subst r. rewrite (downloadFile_known _ _ _ _ c) by done. cbn.
    split_and!; try done.
    + intros _ c' [= <-]. by rewrite lookup_insert_eq.
    + intros [?|?]; done.
    + intros other Hother. by rewrite lookup_insert_ne.
    + intros k. destruct (decide (k = fileId)) as [->|Hk].
      * rewrite lookup_insert_eq, Hc. split; by eexists.
      * by rewrite lookup_insert_ne.
    + apply String.eqb_neq in Hne. rewrite Hne, lookup_insert_eq. cbn.
      by rewrite insert_insert_eq.
  - subst r. rewrite !downloadFile_unknown by (by right). cbn.
    split_and!; done.
Qed.

(** X14. A received file can be downloaded with its bytes. With a chunk
    size of at least 1, after the messages of one send have been received
    in order, downloading under the transfer's identifier (which the
    sender never leaves empty) leaves the file recorded as downloaded with
    a blob that holds the content of the sent file byte for byte. *)
Theorem received_file_downloads_intact cfg fileId file (clock : nat → Z)
    st_s st fileName :
  1 ≤ CHUNK_SIZE cfg →
  fileId ≠ "" →
  let received :=
    run cfg st (arrivals clock (sendFile_messages cfg fileId file st_s)) in
  ∀ c, completedFiles received !! fileId = Some c →
  let r := downloadFile (Completed.url c) fileName fileId received in
  completedFiles r.1 !! fileId
  = Some {| Completed.name := File.name file;
            Completed.size := File.size file;
            Completed.url :=
              {| blob_bytes := File.content file;
                 blob_type := File.type file |};
            Completed.downloaded := true |}
  ∧ r.2 = [LinkClicked {| blob_bytes := File.content file;
                          blob_type := File.type file |} fileName;
           DownloadedShown fileId; DownloadStarted fileName].
Proof.
  intros Hcs Hne received c Hc r.
  destruct (receive_whole_send cfg fileId file clock st st_s Hcs) as (Hcf & _).
  fold received in Hcf. rewrite Hcf, lookup_insert_eq in Hc.
  injection Hc as <-. subst r.
  erewrite downloadFile_known; [|done|by rewrite Hcf, lookup_insert_eq].
  cbn. by rewrite lookup_insert_eq.
Qed.

Lemma received_file_downloads_intact_example :
  let received :=
    run small_chunks online
      (arrivals Z.of_nat (sendFile_messages small_chunks "f1" five_bytes online)) in
  let blob :=
    {| blob_bytes := [Byte.x01; Byte.x02; Byte.x03; Byte.x04; Byte.x05];
       blob_type := "application/octet-stream" |} in
  (Completed.downloaded <$>
     completedFiles (downloadFile blob "a.bin" "f1" received).1 !! "f1")
  = Some true.
Proof.
  intros received blob.
  destruct (received_file_downloads_intact small_chunks "f1" five_bytes
              Z.of_nat online online "a.bin" ltac:(simpl; lia)
              ltac:(discriminate)
              {| Completed.name := "a.bin";
                 Completed.size := 5;
                 Completed.url := blob;
                 Completed.downloaded := false |}) as (H & _).
  - vm_compute. reflexivity.
  - cbn [Completed.url] in H. subst received. rewrite H. reflexivity.
Defined.

(** ** The theme *)

(** X15. The chosen theme survives a reload. After [toggleTheme] the
    theme of the page is 'dark' or 'light' and the local storage holds the
    same value; toggling again always changes the theme, and two more
    toggles bring the page back to where the first left it. On the next
    load, whatever attribute the document starts with and whatever the
    system prefers, [initTheme] restores the stored theme. With nothing
    stored, [initTheme] follows the system: dark when it prefers dark,
    the document as it is otherwise. *)
Theorem theme_survives_reload (p : Theme.t) (fresh : option string)
    (prefers : bool) :
  let q := toggleTheme p in
  let reloaded :=
    initTheme {| Theme.attribute := fresh;
                 Theme.stored := Theme.stored q;
                 Theme.prefersDark := prefers |} in
  (Theme.attribute q = Some "dark" ∨ Theme.attribute q = Some "light")
  ∧ Theme.stored q = Theme.attribute q
  ∧ Theme.attribute (toggleTheme q) ≠ Theme.attribute q
  ∧ toggleTheme (toggleTheme q) = q
  ∧ Theme.attribute reloaded = Theme.attribute q
  ∧ Theme.attribute
      (initTheme {| Theme.attribute := fresh;
                    Theme.stored := None;
                    Theme.prefersDark := prefers |})
    = (if prefers then Some "dark" else fresh).
Proof.
  intros q reloaded. subst reloaded q. unfold toggleTheme, initTheme.
  destruct p as [[t|] s pd]; cbn [Theme.attribute Theme.stored Theme.prefersDark].
  - destruct (String.eqb_spec t "dark"); cbn;
      (split_and!; [auto|done|done|done|done|by destruct prefers]).
  - cbn. split_and!; [auto|done|done|done|done|by destruct prefers].
Qed.

(** ** Room codes *)

Lemma char_at_room i :
  (0 ≤ i < 36)%Z →
  ∃ c, char_at room_chars i = String c ""
       ∧ In c (String.list_ascii_of_string room_chars).
Proof.
  intros [Hlo Hhi]. unfold char_at.
  destruct (Z.ltb_spec i 0); [lia|].
  assert (Z.to_nat i < 36) as Hn by lia.
  generalize dependent (Z.to_nat i). intros n Hn.
  do 36 (destruct n as [|n];
         [eexists; split; [reflexivity|cbn; tauto]|]).
  lia.
Qed.

Lemma random_index (r : Q) :
  (0 <= r)%Q → (r < 1)%Q →
  (0 ≤ Qfloor (r * inject_Z (Z.of_nat (String.length room_chars))) < 36)%Z.
Proof.
  intros Hlo Hhi.
  change (inject_Z (Z.of_nat (String.length room_chars))) with (36 # 1)%Q.
  split.
  - change 0%Z with (Qfloor 0). apply Qfloor_resp_le.
    apply Qmult_le_0_compat; [done|discriminate].
  - apply Z.lt_nge. intros Hge. rewrite Zle_Qle in Hge.
    assert (inject_Z 36 <= r * (36 # 1))%Q as H36
      by (eapply Qle_trans; [exact Hge|apply Qfloor_le]).
    apply Qle_not_lt in H36. apply H36.
    unfold Qlt, Qmult in *. cbn in *. lia.
Qed.

Lemma concat_singletons (cs : list Ascii.ascii) :
  String.concat "" (map (fun c => String c "") cs)
  = String.string_of_list_ascii cs.
Proof.
  induction cs as [|c cs IH]; [done|].
  cbn [map String.concat]. rewrite IH. destruct cs; done.
Qed.

Lemma length_string_of_list (cs : list Ascii.ascii) :
  String.length (String.string_of_list_ascii cs) = length cs.
Proof. induction cs as [|c cs IH]; cbn; congruence. Qed.

Lemma room_code_chars (idxs : list Z) :
  Forall (fun i => (0 ≤ i < 36)%Z) idxs →
  ∃ cs, map (char_at room_chars) idxs = map (fun c => String c "") cs
        ∧ length cs = length idxs
        ∧ Forall (fun c => In c (String.list_ascii_of_string room_chars)) cs.
Proof.
  induction 1 as [|i idxs Hi _ (cs & Heq & Hlen & Hin)].
  - by exists [].
  - destruct (char_at_room i Hi) as (c & Hc & Hcin).
    exists (c :: cs). cbn [map length]. rewrite Hc, Heq, Hlen.
    split_and!; [done|done|by constructor].
Qed.

(** X16. A room code is six characters of the alphabet. Whenever every
    draw of [Math.random()] lies in [0, 1), as the platform promises,
    [generateRoomCode] returns a string of exactly [ROOM_CODE_LENGTH] = 6
    characters, each of them an upper-case letter or a digit of its
    36-character alphabet. *)
Theorem generateRoomCode_shape (random : nat → Q) :
  (∀ k, (0 <= random k)%Q ∧ (random k < 1)%Q) →
  String.length (generateRoomCode random) = ROOM_CODE_LENGTH
  ∧ Forall (fun c => In c (String.list_ascii_of_string room_chars))
      (String.list_ascii_of_string (generateRoomCode random)).
Proof.
  intros Hr. unfold generateRoomCode.
  rewrite <- (map_map
                (fun k =>
                   Qfloor (random k
                           * inject_Z (Z.of_nat (String.length room_chars))))
                (char_at room_chars)).
  destruct (room_code_chars
              (map (fun k =>
                      Qfloor (random k
                              * inject_Z (Z.of_nat (String.length room_chars))))
                 (seq 0 ROOM_CODE_LENGTH))) as (cs & Heq & Hlen & Hin).
  { apply Forall_forall. intros i Hi.
    apply list_elem_of_In, in_map_iff in Hi as (k & <- & _).
    apply random_index; apply Hr. }
  rewrite Heq, concat_singletons. split.
  - by rewrite length_string_of_list, Hlen, length_map, length_seq.
  - by rewrite String.list_ascii_of_string_of_list_ascii.
Qed.

Lemma generateRoomCode_shape_example :
  String.length (generateRoomCode (fun k => (Z.of_nat (k mod 6) # 6)%Q)) = 6.
Proof.
  destruct (generateRoomCode_shape (fun k => (Z.of_nat (k mod 6) # 6)%Q)) as (H & _).
  - intros k. unfold Qle, Qlt. cbn. lia.
  - exact H.
Defined.

(** ** Pings *)

(** X17. What the ping timer sends. On a session whose connection
    reports itself open and whose ping timer is set, every firing of the
    timer puts exactly one [heartbeat] on the channel, stamped with the
    time of the firing, in order, and changes nothing else; while the
    connection is absent or does not report itself open, the firings send
    nothing and change nothing. *)
Theorem pings_follow_the_timer cfg (times : list Z) : ∀ st,
  heartbeatTimer st = true →
  let st' := run cfg st (map PingTick times) in
  (connection st = Some {| open := true |} →
   sent st' = sent st ++ map Heartbeat times
   ∧ ui st' = ui st
   ∧ session st' = session st)
  ∧ (connection st = None ∨ connection st = Some {| open := false |} →
     st' = st).
Proof.
  induction times as [|t times IH]; intros st Htimer st'; subst st'.
  - cbn. rewrite app_nil_r. done.
  - cbn [map]. rewrite run_cons. cbn [step]. rewrite Htimer.
    unfold heartbeatPing. split.
    + intros Hc. rewrite Hc. cbn [open].
      destruct (IH (connection_send (Heartbeat t) st) Htimer) as (Hopen & _).
      destruct (Hopen Hc) as (Hs & Hu & Hf).
      rewrite Hs, Hu, Hf. cbn. by rewrite <- app_assoc.
    + intros Hc. destruct (IH st Htimer) as (_ & Hclosed).
      destruct Hc as [Hc|Hc]; rewrite Hc; cbn [open]; by apply Hclosed; auto.
Qed.

Lemma pings_follow_the_timer_example :
  sent (run CONFIG online (map PingTick [6000; 11000]%Z))
  = [Heartbeat 6000; Heartbeat 11000].
Proof.
  destruct (pings_follow_the_timer CONFIG [6000; 11000]%Z online) as (H & _).
  - reflexivity.
  - destruct (H eq_refl) as (Hs & _). exact Hs.
Defined.
